(** * x86-MMU-Profiler: the process list of [global_profile.c]

    A shallow embedding of the process registry kept by
    [global_profile.c]: the per-process update ([update_process_stats]),
    the merge of an observed pid into the list ([add_pid_to_list]), the
    pruning of expired processes ([remove_expired_processes]), the weight
    of a process ([get_process_weight]) and the scan for the best
    candidate ([update_candidate_process]).

    Conventions of the embedding.
    - The singly linked list [struct process *head] is a Rocq list, head
      first; the [next] field is the tail of the list.  An update through
      a pointer into the list replaces the node at that position.
    - [int] values are integers of [Z]; a subtraction whose result would
      leave the range of [int] is undefined in C and is outside the
      model.  The cast of a [double] to [int] is modelled with the range
      of a 32-bit [int], see [cast_int].
    - [unsigned long current_timestamp] is a [Z] below [2^64] and its
      increment wraps around.
    - [double] values are exact rationals of [Q]: finite values without
      rounding.  A division by zero, the only place where the source
      itself could produce an infinity or a NaN, is made explicit with an
      [option].
    - [syscall(325, pid, value)] appends [(pid, value)] to the list of
      emitted hints. *)

From Stdlib Require Import Ascii String.
From Stdlib Require Import ZArith QArith Qround List Bool Lia Lqa.
Import ListNotations.
Open Scope Z_scope.

(** ** Data *)

(** Modelled from the spec: [struct process], declared in [header.h],
    which is not among the sources.  It is the record of section 3 of the
    spec: the integer fields are signed (the source prints [anon_size] and
    [anon_thp] with [%d], and the spec counts negative values among the
    malformed metrics), [timestamp] holds a value of the clock, and
    [overhead] is a [double] (the source casts it to [int] and copies it
    into a [double]). *)
Record process : Type := mkProcess {
  pid : Z;
  timestamp : Z;
  anon_size : Z;
  anon_thp : Z;
  overhead : Q;
  skip : bool
}.

Definition set_pid (v : Z) (p : process) : process :=
  mkProcess v (timestamp p) (anon_size p) (anon_thp p) (overhead p) (skip p).

Definition set_timestamp (v : Z) (p : process) : process :=
  mkProcess (pid p) v (anon_size p) (anon_thp p) (overhead p) (skip p).

Definition set_thp_usage (size thp : Z) (p : process) : process :=
  mkProcess (pid p) (timestamp p) size thp (overhead p) (skip p).

Definition set_overhead (v : Q) (p : process) : process :=
  mkProcess (pid p) (timestamp p) (anon_size p) (anon_thp p) v (skip p).

Definition set_skip (v : bool) (p : process) : process :=
  mkProcess (pid p) (timestamp p) (anon_size p) (anon_thp p) (overhead p) v.

(** What a metrics call answers: a value, or nothing. *)
Inductive metric (A : Type) : Type :=
| Available (a : A)
| Unavailable.

Arguments Available {A} a.
Arguments Unavailable {A}.

(** The answers of the outside world during one call of
    [add_pid_to_list]: what [malloc] returns ([None] for [NULL], otherwise
    a block whose contents are indeterminate), what the huge-page
    accounting reports ([anon_size], [anon_thp]) and what the performance
    counters report (the overhead). *)
Record extern : Type := mkExtern {
  ext_malloc : option process;
  ext_thp : metric (Z * Z);
  ext_perf : metric Q
}.

(** A hint handed to the kernel: [(pid, value)]. *)
Definition hint : Type := (Z * Z)%type.

(** One observation of a tick: the pid read from the process listing and
    the answers of the outside world while it is handled. *)
Definition observation : Type := (Z * extern)%type.

(** ** Numbers *)

Definition ULONG_MODULUS : Z := 2 ^ 64.

(** [#define max(a, b) (((a) < (b)) ? (b) : (a))] *)
Definition max (a b : Z) : Z := if a <? b then b else a.

(** The range of a 32-bit [int]. *)
Definition INT_MIN : Z := - 2 ^ 31.
Definition INT_MAX : Z := 2 ^ 31 - 1.

(** [(int)x] for a [double] [x]: truncation towards zero when the result
    fits an [int].  When it does not, the conversion is undefined in C;
    the conversion instruction of x86-64, the machine whose system call
    325 the program issues, then stores [INT_MIN]. *)
Definition cast_int (x : Q) : Z :=
  let t := Z.quot (Qnum x) (Zpos (Qden x)) in
  if (INT_MIN <=? t) && (t <=? INT_MAX) then t else INT_MIN.

(** [a < b] on doubles. *)
Definition Qltb (a b : Q) : bool := negb (Qle_bool b a).

(** [a / b] on doubles; [None] stands for the infinity or NaN of a
    division by zero. *)
Definition fdiv (a b : Q) : option Q :=
  if Qeq_bool b 0 then None else Some (a / b)%Q.

(** ** The metrics library *)

(** Modelled from the spec: [update_thp_usage] of [lib_thp.h], the
    [refresh_huge_page_stats] of section 4.1.  On success it stores the
    two sizes and returns 0; when the statistics are unavailable it
    returns -1 and the record keeps the values of its last success. *)
Definition update_thp_usage (r : metric (Z * Z)) (proc : process)
  : Z * process :=
  match r with
  | Available (size, thp) => (0, set_thp_usage size thp proc)
  | Unavailable => (-1, proc)
  end.

(** Modelled from the spec: [update_translation_overhead] of
    [lib_perf.h], the [refresh_translation_overhead] of section 4.1.  On
    success it stores the overhead and returns 0; otherwise it returns -1
    and leaves the record as it is. *)
Definition update_translation_overhead (r : metric Q) (proc : process)
  : Z * process :=
  match r with
  | Available o => (0, set_overhead o proc)
  | Unavailable => (-1, proc)
  end.

(** The pids of the list, in list order. *)
Definition pids (l : list process) : list Z := map pid l.

Section Profiler.

(** The two thresholds are macros of [header.h]. *)
Variable ELIGIBILITY_THRESHOLD : Z.
Variable IS_CONSIDERABLE : Q.

(** ** [update_process_stats] *)

Definition update_process_stats (current_timestamp : Z) (e : extern)
  (pid : Z) (proc : process) : bool * process :=
  let proc := set_pid pid proc in
  let proc := set_timestamp current_timestamp proc in
  let (ret, proc) := update_thp_usage (ext_thp e) proc in
  if negb (ret =? -1) && (ELIGIBILITY_THRESHOLD <? anon_size proc) then
    let (ret', proc) := update_translation_overhead (ext_perf e) proc in
    if ret' =? 0 then (true, set_skip false proc)
    else (false, set_skip true proc)
  else (false, set_skip true proc).

(** ** [add_pid_to_list] *)

(** The [while (proc)] search for [pid], fused with the update of the node
    it stops at: [None] when the search runs off the list, otherwise the
    list with the node updated in place, and that node. *)
Fixpoint update_existing (current_timestamp : Z) (e : extern) (pid0 : Z)
  (l : list process) : option (list process * process) :=
  match l with
  | [] => None
  | proc :: next =>
      if pid proc =? pid0 then
        let proc' := snd (update_process_stats current_timestamp e pid0 proc) in
        Some (proc' :: next, proc')
      else
        match update_existing current_timestamp e pid0 next with
        | Some (next', proc') => Some (proc :: next', proc')
        | None => None
        end
  end.

Definition add_pid_to_list (current_timestamp : Z) (e : extern) (pid0 : Z)
  (head : list process) : list process * list hint :=
  match update_existing current_timestamp e pid0 head with
  | Some (head', proc) =>
      (head', [(pid0, max 1 (cast_int (overhead proc)))])
  | None =>
      match ext_malloc e with
      | None => (head, [])
      | Some new =>
          let (ok, new) := update_process_stats current_timestamp e pid0 new in
          if ok then
            (new :: head,
             [(pid0, 1000); (pid0, max 1 (cast_int (overhead new)))])
          else (head, [])
      end
  end.

(** ** [remove_expired_processes] *)

Fixpoint remove_expired_processes (current_timestamp : Z)
  (l : list process) : list process :=
  match l with
  | [] => []
  | curr :: next =>
      if timestamp curr <? current_timestamp then
        remove_expired_processes current_timestamp next
      else curr :: remove_expired_processes current_timestamp next
  end.

(** ** [get_process_weight] and [update_candidate_process] *)

(** [double rss = (proc->anon_size - proc->anon_thp)/1024;] is an integer
    division, converted afterwards. *)
Definition rss (proc : process) : Q :=
  inject_Z (Z.quot (anon_size proc - anon_thp proc) 1024).

Definition get_process_weight (proc : process) : option Q :=
  let overhead := overhead proc in
  let rss := rss proc in
  if Qle_bool rss 0 then Some (-1)%Q
  else
    match fdiv overhead rss with
    | Some q => Some (q * 1024)%Q
    | None => None
    end.

(** The test at the top of the loop body, negated: the process is not
    skipped over. *)
Definition is_candidate (curr : process) : bool :=
  negb (skip curr || Qltb (overhead curr) IS_CONSIDERABLE).

(** The [while (curr)] loop with its two locals.  The outer [option] is
    [None] when a weight is not a finite number. *)
Fixpoint scan (curr : list process) (best : option process)
  (best_weight : Q) : option (option process) :=
  match curr with
  | [] => Some best
  | c :: next =>
      if skip c || Qltb (overhead c) IS_CONSIDERABLE then
        scan next best best_weight
      else
        match get_process_weight c with
        | None => None
        | Some curr_weight =>
            if Qltb best_weight curr_weight then scan next (Some c) curr_weight
            else scan next best best_weight
        end
  end.

(** The function returns nothing in the source; the model returns the
    local [best] it ends with. *)
Definition update_candidate_process (head : list process)
  : option (option process) :=
  scan head None 0%Q.

(** ** [profile_forever] *)

Record state : Type := mkState {
  head : list process;
  current_timestamp : Z
}.

Definition initial_state : state := mkState [] 0.

(** The [while (fgets ...)] loop: every observed pid goes through
    [add_pid_to_list]. *)
Fixpoint merge (now : Z) (obs : list observation) (head : list process)
  : list process * list hint :=
  match obs with
  | [] => (head, [])
  | (pid0, e) :: rest =>
      let (head1, out1) := add_pid_to_list now e pid0 head in
      let (head2, out2) := merge now rest head1 in
      (head2, out1 ++ out2)
  end.

(** One iteration of the [while (true)] loop. *)
Definition profile_iteration (obs : list observation) (s : state)
  : state * list hint :=
  let now := current_timestamp s in
  let (merged, out) := merge now obs (head s) in
  (mkState (remove_expired_processes now merged)
           ((now + 1) mod ULONG_MODULUS),
   out).

(** The first iterations of [profile_forever], one list of observations
    per iteration. *)
Fixpoint profile_forever (ticks : list (list observation)) (s : state)
  : state * list hint :=
  match ticks with
  | [] => (s, [])
  | obs :: rest =>
      let (s1, out1) := profile_iteration obs s in
      let (s2, out2) := profile_forever rest s1 in
      (s2, out1 ++ out2)
  end.

(** ** [log_process_info] *)

(** One row per node, in list order: the four numbers the [printf] of the
    loop is given. *)
Fixpoint log_process_info (head : list process) : list (Z * Z * Z * Z) :=
  match head with
  | [] => []
  | proc :: next =>
      (pid proc,
       Z.quot (anon_size proc) 2048,
       Z.quot (anon_thp proc) 2048,
       cast_int (overhead proc))
      :: log_process_info next
  end.

(** ** The blocks of the allocator *)

(** The functions that call [malloc] and [free], once more, with the
    number of blocks [malloc] has handed out and [free] has not taken
    back threaded through them. *)
Definition add_pid_to_list_blocks (current_timestamp : Z) (e : extern)
  (pid0 : Z) (head : list process) (live : Z)
  : list process * list hint * Z :=
  match update_existing current_timestamp e pid0 head with
  | Some (head', proc) =>
      (head', [(pid0, max 1 (cast_int (overhead proc)))], live)
  | None =>
      match ext_malloc e with
      | None => (head, [], live)
      | Some new =>
          let (ok, new) := update_process_stats current_timestamp e pid0 new in
          if ok then
            (new :: head,
             [(pid0, 1000); (pid0, max 1 (cast_int (overhead new)))],
             live + 1)
          else (head, [], live + 1)
      end
  end.

Fixpoint remove_expired_processes_blocks (current_timestamp : Z)
  (l : list process) (live : Z) : list process * Z :=
  match l with
  | [] => ([], live)
  | curr :: next =>
      if timestamp curr <? current_timestamp then
        remove_expired_processes_blocks current_timestamp next (live - 1)
      else
        let (rest, live') :=
          remove_expired_processes_blocks current_timestamp next live in
        (curr :: rest, live')
  end.

Fixpoint merge_blocks (now : Z) (obs : list observation)
  (head : list process) (live : Z) : list process * list hint * Z :=
  match obs with
  | [] => (head, [], live)
  | (pid0, e) :: rest =>
      let '(head1, out1, live1) := add_pid_to_list_blocks now e pid0 head live in
      let '(head2, out2, live2) := merge_blocks now rest head1 live1 in
      (head2, out1 ++ out2, live2)
  end.

Definition profile_iteration_blocks (obs : list observation) (s : state)
  (live : Z) : state * list hint * Z :=
  let now := current_timestamp s in
  let '(merged, out, live1) := merge_blocks now obs (head s) live in
  let (pruned, live2) := remove_expired_processes_blocks now merged live1 in
  (mkState pruned ((now + 1) mod ULONG_MODULUS), out, live2).

Fixpoint profile_forever_blocks (ticks : list (list observation))
  (s : state) (live : Z) : state * list hint * Z :=
  match ticks with
  | [] => (s, [], live)
  | obs :: rest =>
      let '(s1, out1, live1) := profile_iteration_blocks obs s live in
      let '(s2, out2, live2) := profile_forever_blocks rest s1 live1 in
      (s2, out1 ++ out2, live2)
  end.

(** ** [make_daemon] and [main] *)

(** A call either returns or ends the process with a status. *)
Inductive control (A : Type) : Type :=
| Returns (a : A)
| Exits (status : Z).

Arguments Returns {A} a.
Arguments Exits {A} status.

Definition EXIT_SUCCESS : Z := 0.
Definition EXIT_FAILURE : Z := 1.

(** [fork_ret] and [setsid_ret] are what [fork()] and [setsid()] answer;
    [setsid] is only called in the child. *)
Definition make_daemon (fork_ret setsid_ret : Z) : control Z :=
  if fork_ret =? -1 then Returns (-1)
  else if fork_ret =? 0 then
    if setsid_ret =? -1 then Returns (-1) else Returns 0
  else Exits EXIT_SUCCESS.

(** [strstr(haystack, needle) != NULL]. *)
Fixpoint strstr (haystack needle : string) : bool :=
  if prefix needle haystack then true
  else
    match haystack with
    | EmptyString => false
    | String _ rest => strstr rest needle
    end.

(** The two members of [enum ProcessorFamily] (declared in [lib_perf.h])
    that [main] names. *)
Inductive ProcessorFamily : Type :=
| SkylakeScalable
| Haswell.

(** The locals of [main] that the option loop sets, with their
    initial values; [None] is [NULL]. *)
Record options : Type := mkOptions {
  interval : Z;
  prog_regex : option string;
  family_str : option string;
  daemonize : bool
}.

Definition initial_options : options := mkOptions 10 None None false.

(** What [main] prints before it exits. *)
Inductive message : Type :=
| USAGE
| unknown_machine_type
| unable_to_daemonize
| nothing.

(** [main] ends the process, or enters [profile_forever], which does not
    return. *)
Inductive outcome : Type :=
| Exit (status : Z) (printed : message)
| Profile (prog_regex : string) (interval : Z).

(** [atoi] is the C library's; [init_perf_event_masks] is declared in
    [lib_perf.h]. *)
Variable atoi : string -> Z.
Variable init_perf_event_masks : ProcessorFamily -> Z.

(** The [while ((c = getopt(...)) != -1)] loop over what [getopt] returns,
    one pair of option character and [optarg] per call; [None] when the
    [default] case exits. *)
Fixpoint getopt_loop (results : list (ascii * string)) (o : options)
  : option options :=
  match results with
  | [] => Some o
  | (c, optarg) :: rest =>
      if Ascii.eqb c "i" then
        getopt_loop rest
          (mkOptions (atoi optarg) (prog_regex o) (family_str o) (daemonize o))
      else if Ascii.eqb c "f" then
        getopt_loop rest
          (mkOptions (interval o) (prog_regex o) (Some optarg) (daemonize o))
      else if Ascii.eqb c "p" then
        getopt_loop rest
          (mkOptions (interval o) (Some optarg) (family_str o) (daemonize o))
      else if Ascii.eqb c "d" then
        getopt_loop rest
          (mkOptions (interval o) (prog_regex o) (family_str o) true)
      else None
  end.

(** The family [main] reads out of the [-f] argument. *)
Definition family_of (family_str : string) : option ProcessorFamily :=
  if strstr family_str "skylakesp" then Some SkylakeScalable
  else if strstr family_str "haswell" then Some Haswell
  else None.

Definition main (results : list (ascii * string)) (fork_ret setsid_ret : Z)
  : outcome :=
  match getopt_loop results initial_options with
  | None => Exit EXIT_FAILURE USAGE
  | Some o =>
      match prog_regex o, family_str o with
      | Some regex, Some fam =>
          match family_of fam with
          | None => Exit EXIT_FAILURE unknown_machine_type
          | Some family =>
              if negb (init_perf_event_masks family =? 0) then
                Exit EXIT_FAILURE unknown_machine_type
              else if daemonize o then
                match make_daemon fork_ret setsid_ret with
                | Exits status => Exit status nothing
                | Returns ret =>
                    if negb (ret =? 0) then
                      Exit EXIT_FAILURE unable_to_daemonize
                    else Profile regex (interval o)
                end
              else Profile regex (interval o)
          end
      | _, _ => Exit EXIT_FAILURE USAGE
      end
  end.

(** ** The lines [profile_forever] reads *)

(** One line of the process listing as the inner loop of
    [profile_forever] meets it: the text [fgets] stored, the value [pid]
    holds after the [sscanf] (the second field of the line, or whatever
    the variable held when the line has none), and the answers of the
    outside world while the pid is handled. *)
Record ps_line : Type := mkLine {
  line_text : string;
  line_pid : Z;
  line_extern : extern
}.

(** The test before the [continue]. *)
Definition ignored (line : string) : bool :=
  strstr line "sshd" || strstr line "bash" || strstr line "global_profile".

(** The calls of [add_pid_to_list] the inner loop makes, in order. *)
Fixpoint read_lines (lines : list ps_line) : list observation :=
  match lines with
  | [] => []
  | l :: rest =>
      if ignored (line_text l) then read_lines rest
      else (line_pid l, line_extern l) :: read_lines rest
  end.

(** ** Vocabulary of the statements *)

(** [needle] occurs in [haystack]. *)
Definition occurs (needle haystack : string) : Prop :=
  exists before after : string,
    haystack = (before ++ needle ++ after)%string.

(** The pids of a tick's input list. *)
Definition obs_pids (obs : list observation) : list Z := map fst obs.

(** The list a tick holds after its observations are merged and before it
    is pruned. *)
Definition merged_list (obs : list observation) (s : state) : list process :=
  fst (merge (current_timestamp s) obs (head s)).

(** The state after the first iterations. *)
Definition state_after (ticks : list (list observation)) : state :=
  fst (profile_forever ticks initial_state).

(** What holds of the state between two iterations as long as the clock
    has not wrapped: pids are unique, the clock is in range and every
    node was stamped before the current time. *)
Definition between_ticks (s : state) : Prop :=
  NoDup (pids (head s)) /\
  0 <= current_timestamp s < ULONG_MODULUS /\
  Forall (fun q => timestamp q < current_timestamp s) (head s).

(** The number [get_process_weight] returns, once it is known to return
    one (lemma [get_process_weight_total]). *)
Definition weight (proc : process) : Q :=
  if Qle_bool (rss proc) 0 then (-1)%Q
  else (overhead proc / rss proc * 1024)%Q.

(** The candidates of a list, in scan order. *)
Definition candidates (l : list process) : list process :=
  filter is_candidate l.

(** ** Concrete data for the scenarios *)

(** The block [malloc] hands out: its contents are arbitrary. *)
Definition fresh_block : process := mkProcess 0 0 0 0 0%Q false.

(** No memory, no statistics, no counters. *)
Definition nothing_available : extern := mkExtern None Unavailable Unavailable.

(** Memory and both metrics are available. *)
Definition all_available (size thp : Z) (o : Q) : extern :=
  mkExtern (Some fresh_block) (Available (size, thp)) (Available o).

(** Scenario D: A has overhead 40 and 2 MB not backed by huge pages, B has
    overhead 10 and 1 MB. *)
Definition scenario_A : process := mkProcess 1 0 2097152 0 40%Q false.
Definition scenario_B : process := mkProcess 2 0 1048576 0 10%Q false.

(** A tracked process, last seen at time 5 with overhead 7. *)
Definition tracked : process := mkProcess 100 5 50000 0 7%Q false.

(** The same process after an observation at time 6 during which no
    metric could be read. *)
Definition tracked_after_failure : process :=
  mkProcess 100 6 50000 0 7%Q true.

(** All but 512 units of the anonymous memory are backed by huge pages. *)
Definition small_remainder : process := mkProcess 3 0 20512 20000 40%Q false.

(** More huge-page memory reported than anonymous memory. *)
Definition malformed : process := mkProcess 9 0 1000 5000 40%Q false.

Definition zero_overhead : process := mkProcess 4 0 2097152 0 0%Q false.
Definition negative_overhead : process :=
  mkProcess 5 0 2097152 0 (-1)%Q false.

(** Scenario B: pid 100 is observed at every tick from 0 to 5. *)
Definition six_ticks : list (list observation) :=
  repeat [(100, all_available 50000 0 7%Q)] 6.

(** A command line as [getopt] reports it: [-p a.out -f haswell -i 5
    -p b.out]. *)
Definition command_line : list (ascii * string) :=
  [("p"%char, "a.out"%string); ("f"%char, "haswell"%string);
   ("i"%char, "5"%string); ("p"%char, "b.out"%string)].

(** Stand-ins for [atoi] and [init_perf_event_masks] on that command
    line. *)
Definition atoi_five (_ : string) : Z := 5.
Definition masks_accepted (_ : ProcessorFamily) : Z := 0.

(** ** Numbers *)

Lemma Qltb_true (a b : Q) : Qltb a b = true <-> (a < b)%Q.
Proof.
  unfold Qltb. rewrite negb_true_iff.
  split; intro H.
  - apply Qnot_le_lt. intro Hle. apply Qle_bool_iff in Hle. congruence.
  - destruct (Qle_bool b a) eqn:E; [|reflexivity].
    apply Qle_bool_iff in E. exfalso. apply (Qlt_not_le _ _ H E).
Qed.

Lemma Qltb_false (a b : Q) : Qltb a b = false <-> (b <= a)%Q.
Proof.
  unfold Qltb. rewrite negb_false_iff. apply Qle_bool_iff.
Qed.

Lemma max_spec (a b : Z) : max a b = Z.max a b.
Proof. unfold max. destruct (Z.ltb_spec a b); lia. Qed.

Lemma max_lower_bound (a b : Z) : a <= max a b.
Proof. rewrite max_spec. lia. Qed.

Lemma INT_MIN_value : INT_MIN = -2147483648.
Proof. reflexivity. Qed.

Lemma INT_MAX_value : INT_MAX = 2147483647.
Proof. reflexivity. Qed.

Lemma quot_floor (x : Q) :
  (0 <= Qnum x -> Z.quot (Qnum x) (Zpos (Qden x)) = Qfloor x /\ 0 <= Qfloor x) /\
  (Qnum x < 0 -> Z.quot (Qnum x) (Zpos (Qden x)) <= 0 /\ Qfloor x < 0).
Proof.
  destruct x as [n d]. unfold Qfloor. simpl. split; intro Hn.
  - rewrite Z.quot_div_nonneg by lia. split; [reflexivity|].
    apply Z.div_pos; lia.
  - split.
    + pose proof (Z.quot_opp_l (- n) (Zpos d) ltac:(lia)) as Ho.
      rewrite Z.opp_involutive in Ho.
      pose proof (Z.quot_pos (- n) (Zpos d) ltac:(lia) ltac:(lia)). lia.
    + apply Z.div_lt_upper_bound; lia.
Qed.

Lemma Qfloor_below (x : Q) (z : Z) : (x < inject_Z z)%Q -> Qfloor x < z.
Proof.
  intro H. rewrite Zlt_Qlt.
  apply Qle_lt_trans with x; [apply Qfloor_le | assumption].
Qed.

Lemma Qfloor_above (x : Q) (z : Z) : (inject_Z z <= x)%Q -> z <= Qfloor x.
Proof.
  intro H. rewrite <- (Qfloor_Z z). apply Qfloor_resp_le. assumption.
Qed.

(** Below [2^31], under the clamp at 1, the cast and the floor agree. *)
Lemma cast_int_floor_clamped (x : Q) :
  (x < 2147483648)%Q ->
  max 1 (cast_int x) = Z.max 1 (Qfloor x).
Proof.
  intro H. rewrite max_spec. unfold cast_int. cbv zeta.
  pose proof (Qfloor_below x 2147483648 H) as Hf.
  destruct (quot_floor x) as [Hpos Hneg].
  rewrite INT_MIN_value, INT_MAX_value.
  set (t := Z.quot (Qnum x) (Zpos (Qden x))) in *.
  destruct (Z.leb_spec (-2147483648) t) as [H1 | H1];
    destruct (Z.leb_spec t 2147483647) as [H2 | H2]; simpl;
    destruct (Z_le_gt_dec 0 (Qnum x)) as [Hn | Hn];
    try (destruct (Hpos Hn) as [Ht H0]); try (destruct (Hneg ltac:(lia)));
    lia.
Qed.

(** From [2^31] on the cast leaves the range of [int]. *)
Lemma cast_int_overflow (x : Q) :
  (2147483648 <= x)%Q -> cast_int x = INT_MIN.
Proof.
  intro H. unfold cast_int. cbv zeta.
  pose proof (Qfloor_above x 2147483648 H) as Hf.
  destruct (quot_floor x) as [Hpos Hneg].
  rewrite INT_MAX_value.
  set (t := Z.quot (Qnum x) (Zpos (Qden x))) in *.
  destruct (Z.leb_spec t 2147483647) as [H2 | H2].
  - exfalso.
    destruct (Z_le_gt_dec 0 (Qnum x)) as [Hn | Hn].
    + destruct (Hpos Hn). lia.
    + destruct (Hneg ltac:(lia)). lia.
  - rewrite andb_false_r. reflexivity.
Qed.

(** ** The update of one record *)

Ltac unfold_update :=
  unfold update_process_stats, update_thp_usage, update_translation_overhead.

Lemma update_process_stats_pid now e pid0 proc :
  pid (snd (update_process_stats now e pid0 proc)) = pid0.
Proof.
  unfold_update.
  destruct (ext_thp e) as [[size thp]|]; simpl;
    [destruct (ELIGIBILITY_THRESHOLD <? size);
     [destruct (ext_perf e)|]|]; reflexivity.
Qed.

Lemma update_process_stats_timestamp now e pid0 proc :
  timestamp (snd (update_process_stats now e pid0 proc)) = now.
Proof.
  unfold_update.
  destruct (ext_thp e) as [[size thp]|]; simpl;
    [destruct (ELIGIBILITY_THRESHOLD <? size);
     [destruct (ext_perf e)|]|]; reflexivity.
Qed.

Lemma update_process_stats_skip now e pid0 proc :
  skip (snd (update_process_stats now e pid0 proc))
  = negb (fst (update_process_stats now e pid0 proc)).
Proof.
  unfold_update.
  destruct (ext_thp e) as [[size thp]|]; simpl;
    [destruct (ELIGIBILITY_THRESHOLD <? size);
     [destruct (ext_perf e)|]|]; reflexivity.
Qed.

(** The update succeeds exactly when both refreshes do and the refreshed
    size is above the threshold; the record then holds the fresh
    metrics. *)
Lemma update_process_stats_true now e pid0 proc :
  fst (update_process_stats now e pid0 proc) = true <->
  exists size thp o,
    ext_thp e = Available (size, thp) /\
    ELIGIBILITY_THRESHOLD < size /\
    ext_perf e = Available o.
Proof.
  unfold_update.
  destruct (ext_thp e) as [[size thp]|]; simpl.
  - destruct (Z.ltb_spec ELIGIBILITY_THRESHOLD size) as [Hlt | Hge].
    + destruct (ext_perf e) as [o|]; simpl.
      * split; [intros _; exists size, thp, o; auto | reflexivity].
      * split; [discriminate | intros (? & ? & ? & _ & _ & H); discriminate].
    + split; [discriminate |].
      intros (s & t & o & H & Hlt & _). inversion H; subst. lia.
  - split; [discriminate | intros (? & ? & ? & H & _); discriminate].
Qed.

Lemma update_process_stats_fresh now e pid0 proc size thp o :
  ext_thp e = Available (size, thp) ->
  ELIGIBILITY_THRESHOLD < size ->
  ext_perf e = Available o ->
  update_process_stats now e pid0 proc
  = (true, mkProcess pid0 now size thp o false).
Proof.
  intros Ht Hlt Hp. unfold_update. rewrite Ht, Hp. simpl.
  apply Z.ltb_lt in Hlt. rewrite Hlt. reflexivity.
Qed.

(** A record that leaves the update with [skip = false] is above the
    threshold. *)
Lemma update_process_stats_above now e pid0 proc :
  skip (snd (update_process_stats now e pid0 proc)) = false ->
  ELIGIBILITY_THRESHOLD < anon_size (snd (update_process_stats now e pid0 proc)).
Proof.
  rewrite update_process_stats_skip, negb_false_iff. intro H.
  destruct (proj1 (update_process_stats_true _ _ _ _) H)
    as (size & thp & o & Ht & Hlt & Hp).
  rewrite (update_process_stats_fresh _ _ _ _ _ _ _ Ht Hlt Hp). exact Hlt.
Qed.

Lemma is_candidate_spec (p : process) :
  is_candidate p = true <->
  skip p = false /\ (IS_CONSIDERABLE <= overhead p)%Q.
Proof.
  unfold is_candidate. rewrite negb_true_iff, orb_false_iff, Qltb_false.
  reflexivity.
Qed.

(** ** The list under [add_pid_to_list] *)

(** The search stops at the first node with the pid, and updates it where
    it stands; it runs off the list exactly when the pid is not there. *)
Lemma update_existing_spec now e pid0 l :
  match update_existing now e pid0 l with
  | None => ~ In pid0 (pids l)
  | Some (l', proc') =>
      exists l1 old l2,
        l = l1 ++ old :: l2 /\
        ~ In pid0 (pids l1) /\
        pid old = pid0 /\
        proc' = snd (update_process_stats now e pid0 old) /\
        l' = l1 ++ proc' :: l2
  end.
Proof.
  induction l as [|proc next IH]; simpl.
  - tauto.
  - destruct (Z.eqb_spec (pid proc) pid0) as [Heq | Hne].
    + exists [], proc, next. simpl. tauto.
    + destruct (update_existing now e pid0 next) as [[next' proc']|].
      * destruct IH as (l1 & old & l2 & -> & Hnot & Hold & Hproc & ->).
        exists (proc :: l1), old, l2. simpl. intuition congruence.
      * intros [H | H]; [congruence | tauto].
Qed.

Lemma pids_app l1 l2 : pids (l1 ++ l2) = pids l1 ++ pids l2.
Proof. apply map_app. Qed.

(** Observing a pid of the list: its first node is updated in place, and
    one hint is emitted from the overhead the node then holds. *)
Lemma add_pid_to_list_present now e pid0 l :
  In pid0 (pids l) ->
  exists l1 old l2,
    l = l1 ++ old :: l2 /\
    ~ In pid0 (pids l1) /\
    pid old = pid0 /\
    let proc' := snd (update_process_stats now e pid0 old) in
    add_pid_to_list now e pid0 l
    = (l1 ++ proc' :: l2, [(pid0, max 1 (cast_int (overhead proc')))]).
Proof.
  intro Hin. unfold add_pid_to_list.
  pose proof (update_existing_spec now e pid0 l) as H.
  destruct (update_existing now e pid0 l) as [[l' proc']|]; [|tauto].
  destruct H as (l1 & old & l2 & Hl & Hnot & Hold & Hproc & Hl').
  exists l1, old, l2. subst l' proc'. auto.
Qed.

(** Observing a pid that is not in the list. *)
Lemma add_pid_to_list_absent now e pid0 l :
  ~ In pid0 (pids l) ->
  add_pid_to_list now e pid0 l =
  match ext_malloc e with
  | None => (l, [])
  | Some new =>
      let r := update_process_stats now e pid0 new in
      if fst r then
        (snd r :: l,
         [(pid0, 1000); (pid0, max 1 (cast_int (overhead (snd r))))])
      else (l, [])
  end.
Proof.
  intro Hnot. unfold add_pid_to_list.
  pose proof (update_existing_spec now e pid0 l) as H.
  destruct (update_existing now e pid0 l) as [[l' proc']|].
  - destruct H as (l1 & old & l2 & -> & _ & Hold & _).
    exfalso. apply Hnot. rewrite pids_app. apply in_or_app. right.
    simpl. auto.
  - destruct (ext_malloc e) as [new|]; [|reflexivity].
    simpl. destruct (update_process_stats now e pid0 new) as [ok new'].
    reflexivity.
Qed.

(** What one call does to the list, seen from its nodes. *)
Lemma add_pid_to_list_pids now e pid0 l :
  pids (fst (add_pid_to_list now e pid0 l)) = pids l \/
  (~ In pid0 (pids l) /\
   pids (fst (add_pid_to_list now e pid0 l)) = pid0 :: pids l).
Proof.
  destruct (in_dec Z.eq_dec pid0 (pids l)) as [Hin | Hnot].
  - left.
    destruct (add_pid_to_list_present now e pid0 l Hin)
      as (l1 & old & l2 & -> & _ & Hold & Hadd).
    simpl in Hadd. rewrite Hadd. simpl.
    rewrite !pids_app. simpl.
    rewrite update_process_stats_pid. congruence.
  - rewrite (add_pid_to_list_absent now e pid0 l Hnot).
    destruct (ext_malloc e) as [new|]; [|left; reflexivity].
    simpl. destruct (fst (update_process_stats now e pid0 new)).
    + right. split; [assumption|]. simpl.
      rewrite update_process_stats_pid. reflexivity.
    + left. reflexivity.
Qed.

Lemma add_pid_to_list_NoDup now e pid0 l :
  NoDup (pids l) -> NoDup (pids (fst (add_pid_to_list now e pid0 l))).
Proof.
  intro H.
  destruct (add_pid_to_list_pids now e pid0 l) as [-> | [Hnot ->]].
  - assumption.
  - constructor; assumption.
Qed.

(** Every node of the new list is either the node of the observed pid,
    stamped with the current time, or an untouched node of another pid. *)
Lemma add_pid_to_list_nodes now e pid0 l q :
  NoDup (pids l) ->
  In q (fst (add_pid_to_list now e pid0 l)) ->
  (pid q = pid0 /\ timestamp q = now) \/ (In q l /\ pid q <> pid0).
Proof.
  intros Hnd Hq.
  destruct (in_dec Z.eq_dec pid0 (pids l)) as [Hin | Hnot].
  - destruct (add_pid_to_list_present now e pid0 l Hin)
      as (l1 & old & l2 & -> & Hl1 & Hold & Hadd).
    simpl in Hadd. rewrite Hadd in Hq. simpl in Hq.
    rewrite pids_app in Hnd. simpl in Hnd.
    apply NoDup_remove_2 in Hnd. rewrite Hold in Hnd.
    apply in_app_or in Hq. destruct Hq as [Hq | [Hq | Hq]].
    + right. split; [apply in_or_app; auto|].
      intro Hp. apply Hl1. rewrite <- Hp. apply in_map. assumption.
    + left. subst q.
      rewrite update_process_stats_pid, update_process_stats_timestamp. auto.
    + right. split; [apply in_or_app; simpl; auto|].
      intro Hp. apply Hnd. apply in_or_app. right.
      rewrite <- Hp. apply in_map. assumption.
  - rewrite (add_pid_to_list_absent now e pid0 l Hnot) in Hq.
    assert (Hother : In q l -> In q l /\ pid q <> pid0).
    { intro Hl. split; [assumption|]. intro Hp. apply Hnot.
      rewrite <- Hp. apply in_map. assumption. }
    destruct (ext_malloc e) as [new|]; [|auto].
    simpl in Hq. destruct (fst (update_process_stats now e pid0 new)); [|auto].
    destruct Hq as [Hq | Hq]; [|auto].
    left. subst q.
    rewrite update_process_stats_pid, update_process_stats_timestamp. auto.
Qed.

(** Nodes of other pids stay. *)
Lemma add_pid_to_list_keeps now e pid0 l q :
  In q l -> pid q <> pid0 -> In q (fst (add_pid_to_list now e pid0 l)).
Proof.
  intros Hq Hne.
  destruct (in_dec Z.eq_dec pid0 (pids l)) as [Hin | Hnot].
  - destruct (add_pid_to_list_present now e pid0 l Hin)
      as (l1 & old & l2 & -> & Hl1 & Hold & Hadd).
    simpl in Hadd. rewrite Hadd. simpl.
    apply in_app_or in Hq. apply in_or_app.
    destruct Hq as [Hq | [Hq | Hq]]; [auto | congruence | simpl; auto].
  - rewrite (add_pid_to_list_absent now e pid0 l Hnot).
    destruct (ext_malloc e) as [new|]; [|assumption].
    simpl. destruct (fst (update_process_stats now e pid0 new));
      simpl; auto.
Qed.

Lemma add_pid_to_list_hints now e pid0 l :
  Forall (fun h : hint => 1 <= snd h) (snd (add_pid_to_list now e pid0 l)).
Proof.
  unfold add_pid_to_list.
  destruct (update_existing now e pid0 l) as [[l' proc']|].
  - simpl. repeat constructor. apply max_lower_bound.
  - destruct (ext_malloc e) as [new|]; [|constructor].
    destruct (update_process_stats now e pid0 new) as [[] new']; simpl.
    + repeat constructor; simpl; [lia | apply max_lower_bound].
    + constructor.
Qed.

(** ** The list under [merge] *)

Lemma merge_cons now pid0 e rest l :
  merge now ((pid0, e) :: rest) l
  = (fst (merge now rest (fst (add_pid_to_list now e pid0 l))),
     snd (add_pid_to_list now e pid0 l)
     ++ snd (merge now rest (fst (add_pid_to_list now e pid0 l)))).
Proof.
  simpl. destruct (add_pid_to_list now e pid0 l) as [l1 out1]. simpl.
  destruct (merge now rest l1) as [l2 out2]. reflexivity.
Qed.

Lemma merge_NoDup now obs : forall l,
  NoDup (pids l) -> NoDup (pids (fst (merge now obs l))).
Proof.
  induction obs as [|[pid0 e] rest IH]; intros l H.
  - exact H.
  - rewrite merge_cons. simpl. apply IH, add_pid_to_list_NoDup, H.
Qed.

(** After the merge a node either belongs to an observed pid and carries
    the current time, or is an untouched node of a pid that was not
    observed. *)
Lemma merge_nodes now obs : forall l q,
  NoDup (pids l) ->
  In q (fst (merge now obs l)) ->
  (In (pid q) (obs_pids obs) /\ timestamp q = now) \/
  (In q l /\ ~ In (pid q) (obs_pids obs)).
Proof.
  induction obs as [|[pid0 e] rest IH]; intros l q Hnd Hq.
  - right. simpl in *. tauto.
  - rewrite merge_cons in Hq. simpl in Hq.
    destruct (IH _ _ (add_pid_to_list_NoDup now e pid0 l Hnd) Hq)
      as [[Hin Hts] | [Hin Hnot]].
    + left. simpl. auto.
    + destruct (add_pid_to_list_nodes now e pid0 l q Hnd Hin)
        as [[Hp Hts] | [Hl Hp]].
      * left. simpl. auto.
      * right. split; [assumption|]. simpl. intros [E | E]; auto.
Qed.

Lemma merge_keeps now obs : forall l q,
  In q l -> ~ In (pid q) (obs_pids obs) -> In q (fst (merge now obs l)).
Proof.
  induction obs as [|[pid0 e] rest IH]; intros l q Hq Hnot.
  - exact Hq.
  - rewrite merge_cons. simpl. simpl in Hnot. apply IH; [|tauto].
    apply add_pid_to_list_keeps; [assumption|]. intro E. auto.
Qed.

Lemma merge_hints now obs : forall l,
  Forall (fun h : hint => 1 <= snd h) (snd (merge now obs l)).
Proof.
  induction obs as [|[pid0 e] rest IH]; intro l.
  - constructor.
  - rewrite merge_cons. simpl. apply Forall_app. split.
    + apply add_pid_to_list_hints.
    + apply IH.
Qed.

(** ** The list under [remove_expired_processes] *)

Lemma remove_expired_processes_filter now l :
  remove_expired_processes now l
  = filter (fun q => negb (timestamp q <? now)) l.
Proof.
  induction l as [|curr next IH]; simpl; [reflexivity|].
  destruct (timestamp curr <? now); simpl; congruence.
Qed.

Lemma remove_expired_processes_In now l q :
  In q (remove_expired_processes now l) <-> In q l /\ ~ timestamp q < now.
Proof.
  rewrite remove_expired_processes_filter, filter_In, negb_true_iff.
  rewrite Z.ltb_ge. intuition lia.
Qed.

Lemma remove_expired_processes_NoDup now l :
  NoDup (pids l) -> NoDup (pids (remove_expired_processes now l)).
Proof.
  induction l as [|curr next IH]; simpl; intro H; [constructor|].
  inversion H as [|? ? Hnot Hnd]; subst.
  destruct (timestamp curr <? now); [auto|].
  simpl. constructor; [|auto].
  intro Hin. apply Hnot. unfold pids in *.
  apply in_map_iff in Hin. destruct Hin as (q & Hq & Hin).
  apply remove_expired_processes_In in Hin.
  rewrite <- Hq. apply in_map. tauto.
Qed.

(** ** One iteration, and many *)

Lemma profile_iteration_eq obs s :
  profile_iteration obs s
  = (mkState (remove_expired_processes (current_timestamp s)
                                       (merged_list obs s))
             ((current_timestamp s + 1) mod ULONG_MODULUS),
     snd (merge (current_timestamp s) obs (head s))).
Proof.
  unfold profile_iteration, merged_list.
  destruct (merge (current_timestamp s) obs (head s)); reflexivity.
Qed.

Lemma profile_forever_cons obs rest s :
  profile_forever (obs :: rest) s
  = (fst (profile_forever rest (fst (profile_iteration obs s))),
     snd (profile_iteration obs s)
     ++ snd (profile_forever rest (fst (profile_iteration obs s)))).
Proof.
  simpl. destruct (profile_iteration obs s) as [s1 out1]. simpl.
  destruct (profile_forever rest s1) as [s2 out2]. reflexivity.
Qed.

(** After an iteration that started between ticks, the list holds exactly
    the merged nodes of the observed pids, all stamped with the time of
    the iteration. *)
Lemma profile_iteration_list obs s q :
  between_ticks s ->
  In q (head (fst (profile_iteration obs s))) <->
  In q (merged_list obs s) /\ In (pid q) (obs_pids obs).
Proof.
  intros (Hnd & _ & Hold). rewrite profile_iteration_eq. simpl.
  rewrite remove_expired_processes_In. unfold merged_list.
  split.
  - intros [Hq Hts]. split; [assumption|].
    destruct (merge_nodes _ _ _ _ Hnd Hq) as [[Hin _] | [Hin _]];
      [assumption|].
    rewrite Forall_forall in Hold. specialize (Hold _ Hin). lia.
  - intros [Hq Hin]. split; [assumption|].
    destruct (merge_nodes _ _ _ _ Hnd Hq) as [[_ Hts] | [_ Hnot]];
      [lia | tauto].
Qed.

Lemma profile_iteration_stamps obs s q :
  between_ticks s ->
  In q (head (fst (profile_iteration obs s))) ->
  timestamp q = current_timestamp s.
Proof.
  intros Hs Hq. pose proof Hs as (Hnd & _ & Hold).
  apply (profile_iteration_list obs s q Hs) in Hq. destruct Hq as [Hq Hin].
  destruct (merge_nodes _ _ _ _ Hnd Hq) as [[_ Hts] | [_ Hnot]];
    [assumption | tauto].
Qed.

Lemma profile_iteration_NoDup obs s :
  NoDup (pids (head s)) ->
  NoDup (pids (head (fst (profile_iteration obs s)))).
Proof.
  intro H. rewrite profile_iteration_eq. simpl.
  apply remove_expired_processes_NoDup, merge_NoDup, H.
Qed.

Lemma profile_iteration_clock obs s :
  current_timestamp (fst (profile_iteration obs s))
  = (current_timestamp s + 1) mod ULONG_MODULUS.
Proof. rewrite profile_iteration_eq. reflexivity. Qed.

Lemma profile_iteration_between obs s :
  between_ticks s ->
  current_timestamp s + 1 < ULONG_MODULUS ->
  between_ticks (fst (profile_iteration obs s)).
Proof.
  intros Hs Hclock. pose proof Hs as (Hnd & Hrange & Hold).
  assert (Hnext : current_timestamp (fst (profile_iteration obs s))
                  = current_timestamp s + 1).
  { rewrite profile_iteration_clock. apply Z.mod_small. lia. }
  split; [|split].
  - apply profile_iteration_NoDup, Hnd.
  - rewrite Hnext. lia.
  - apply Forall_forall. intros q Hq.
    rewrite (profile_iteration_stamps obs s q Hs Hq), Hnext. lia.
Qed.

Lemma profile_forever_between ticks : forall s,
  between_ticks s ->
  current_timestamp s + Z.of_nat (length ticks) < ULONG_MODULUS ->
  between_ticks (fst (profile_forever ticks s)) /\
  current_timestamp (fst (profile_forever ticks s))
  = current_timestamp s + Z.of_nat (length ticks).
Proof.
  induction ticks as [|obs rest IH]; intros s Hs Hclock.
  - simpl. split; [assumption | lia].
  - rewrite profile_forever_cons. simpl fst.
    simpl length in *. rewrite Nat2Z.inj_succ in *.
    pose proof Hs as (_ & Hrange & _).
    assert (Hnext : current_timestamp (fst (profile_iteration obs s))
                    = current_timestamp s + 1).
    { rewrite profile_iteration_clock. apply Z.mod_small. lia. }
    destruct (IH (fst (profile_iteration obs s))) as [Hb Hc].
    + apply profile_iteration_between; [assumption | lia].
    + lia.
    + split; [assumption | lia].
Qed.

Lemma initial_state_between : between_ticks initial_state.
Proof.
  split; [constructor | split; [unfold ULONG_MODULUS; simpl; lia | constructor]].
Qed.

Lemma state_after_between ticks :
  Z.of_nat (length ticks) < ULONG_MODULUS ->
  between_ticks (state_after ticks).
Proof.
  intro H. apply profile_forever_between.
  - apply initial_state_between.
  - simpl. exact H.
Qed.

Lemma profile_forever_NoDup ticks : forall s,
  NoDup (pids (head s)) ->
  NoDup (pids (head (fst (profile_forever ticks s)))).
Proof.
  induction ticks as [|obs rest IH]; intros s H.
  - exact H.
  - rewrite profile_forever_cons. simpl. apply IH, profile_iteration_NoDup, H.
Qed.

Lemma profile_forever_hints ticks : forall s,
  Forall (fun h : hint => 1 <= snd h) (snd (profile_forever ticks s)).
Proof.
  induction ticks as [|obs rest IH]; intro s.
  - constructor.
  - rewrite profile_forever_cons. simpl. apply Forall_app. split.
    + rewrite profile_iteration_eq. simpl. apply merge_hints.
    + apply IH.
Qed.

(** ** Weights *)

(** The division of [get_process_weight] is only reached with a positive
    divisor, so the function always returns a number. *)
Lemma get_process_weight_total (proc : process) :
  get_process_weight proc = Some (weight proc).
Proof.
  unfold get_process_weight, weight, fdiv.
  destruct (Qle_bool (rss proc) 0) eqn:Hle; [reflexivity|].
  destruct (Qeq_bool (rss proc) 0) eqn:Heq; [|reflexivity].
  apply Qeq_bool_iff in Heq.
  assert (Hle' : Qle_bool (rss proc) 0 = true).
  { apply Qle_bool_iff. rewrite Heq. apply Qle_refl. }
  congruence.
Qed.

Lemma rss_positive (proc : process) :
  (0 < rss proc)%Q <-> 1024 <= anon_size proc - anon_thp proc.
Proof.
  unfold rss. set (d := anon_size proc - anon_thp proc).
  change 0%Q with (inject_Z 0). rewrite <- Zlt_Qlt.
  pose proof (Z.quot_rem' d 1024) as Hd.
  split; intro H.
  - destruct (Z_lt_le_dec d 1024) as [Hlt | Hge]; [|assumption].
    exfalso.
    destruct (Z_le_gt_dec 0 d) as [Hpos | Hneg].
    + rewrite Z.quot_small in H by lia. lia.
    + pose proof (Z.quot_opp_l (- d) 1024 ltac:(lia)) as Ho.
      rewrite Z.opp_involutive in Ho.
      pose proof (Z.quot_pos (- d) 1024 ltac:(lia) ltac:(lia)). lia.
  - apply Z.quot_str_pos. lia.
Qed.

Lemma weight_excluded (proc : process) :
  anon_size proc - anon_thp proc < 1024 -> weight proc = (-1)%Q.
Proof.
  intro H. unfold weight.
  destruct (Qle_bool (rss proc) 0) eqn:Hle; [reflexivity|].
  exfalso.
  assert (Hpos : (0 < rss proc)%Q).
  { apply Qnot_le_lt. intro Hc. apply Qle_bool_iff in Hc. congruence. }
  apply rss_positive in Hpos. lia.
Qed.

Lemma weight_scored (proc : process) :
  1024 <= anon_size proc - anon_thp proc ->
  weight proc = (overhead proc / rss proc * 1024)%Q.
Proof.
  intro H. unfold weight.
  destruct (Qle_bool (rss proc) 0) eqn:Hle; [|reflexivity].
  exfalso. apply Qle_bool_iff in Hle.
  apply rss_positive in H. apply (Qlt_not_le _ _ H Hle).
Qed.

(** A positive weight needs a positive overhead over a positive [rss]. *)
Lemma weight_positive (proc : process) :
  (0 < weight proc)%Q <->
  1024 <= anon_size proc - anon_thp proc /\ (0 < overhead proc)%Q.
Proof.
  destruct (Z_lt_le_dec (anon_size proc - anon_thp proc) 1024) as [Hlt | Hge].
  - rewrite (weight_excluded proc Hlt).
    split; [intro H; exfalso; revert H; apply Qle_not_lt; discriminate
           | intros [H _]; lia].
  - rewrite (weight_scored proc Hge).
    pose proof (proj2 (rss_positive proc) Hge) as Hr.
    assert (Hi : (0 < / rss proc)%Q) by (apply Qinv_lt_0_compat, Hr).
    unfold Qdiv. split.
    + intro H. split; [assumption|].
      destruct (Qlt_le_dec 0 (overhead proc)) as [Ho | Ho]; [assumption|].
      exfalso. apply (Qlt_not_le _ _ H).
      assert (Hm : (overhead proc * / rss proc <= 0)%Q) by nra.
      nra.
    + intros [_ Ho].
      assert (Hm : (0 < overhead proc * / rss proc)%Q) by nra.
      nra.
Qed.

(** ** The scan *)

Lemma scan_skips c next best bw :
  is_candidate c = false ->
  scan (c :: next) best bw = scan next best bw.
Proof.
  unfold is_candidate. rewrite negb_false_iff. intro H. simpl.
  rewrite H. reflexivity.
Qed.

Lemma scan_weighs c next best bw :
  is_candidate c = true ->
  scan (c :: next) best bw
  = if Qltb bw (weight c) then scan next (Some c) (weight c)
    else scan next best bw.
Proof.
  unfold is_candidate. rewrite negb_true_iff. intro H. simpl.
  rewrite H, get_process_weight_total. reflexivity.
Qed.

(** Only the candidates matter to the scan. *)
Lemma scan_candidates l : forall best bw,
  scan l best bw = scan (candidates l) best bw.
Proof.
  induction l as [|c next IH]; intros best bw; [reflexivity|].
  unfold candidates. simpl filter.
  destruct (is_candidate c) eqn:Hc.
  - fold (candidates next). rewrite !(scan_weighs _ _ _ _ Hc).
    destruct (Qltb bw (weight c)); apply IH.
  - rewrite (scan_skips _ _ _ _ Hc). apply IH.
Qed.

(** The scan ends either with the best it started from, no candidate
    being heavier than the starting weight, or with the first of the
    heaviest candidates, which is heavier than the starting weight. *)
Lemma scan_spec l : forall best bw,
  exists r, scan l best bw = Some r /\
    ((r = best /\
      forall c, In c l -> is_candidate c = true -> (weight c <= bw)%Q) \/
     (exists l1 p l2,
        l = l1 ++ p :: l2 /\ r = Some p /\
        is_candidate p = true /\ (bw < weight p)%Q /\
        (forall c, In c l1 -> is_candidate c = true ->
                   (weight c < weight p)%Q) /\
        (forall c, In c l2 -> is_candidate c = true ->
                   (weight c <= weight p)%Q))).
Proof.
  induction l as [|c next IH]; intros best bw.
  - exists best. split; [reflexivity|]. left. split; [reflexivity|].
    intros c [].
  - destruct (is_candidate c) eqn:Hc.
    + rewrite (scan_weighs _ _ _ _ Hc).
      destruct (Qltb bw (weight c)) eqn:Hlt.
      * apply Qltb_true in Hlt.
        destruct (IH (Some c) (weight c)) as (r & Hr & Hcases).
        exists r. split; [assumption|]. right.
        destruct Hcases as [[-> Hall] |
          (l1 & p & l2 & -> & -> & Hp & Hbw & Hl1 & Hl2)].
        -- exists [], c, next. simpl. intuition.
        -- exists (c :: l1), p, l2. simpl.
           repeat split; try assumption; [lra|].
           intros c' [<- | Hin] Hc'; [assumption | auto].
      * apply Qltb_false in Hlt.
        destruct (IH best bw) as (r & Hr & Hcases).
        exists r. split; [assumption|].
        destruct Hcases as [[-> Hall] |
          (l1 & p & l2 & -> & -> & Hp & Hbw & Hl1 & Hl2)].
        -- left. split; [reflexivity|].
           intros c' [<- | Hin] Hc'; [assumption | auto].
        -- right. exists (c :: l1), p, l2. simpl.
           repeat split; try assumption.
           intros c' [<- | Hin] Hc'; [lra | auto].
    + rewrite (scan_skips _ _ _ _ Hc).
      destruct (IH best bw) as (r & Hr & Hcases).
      exists r. split; [assumption|].
      destruct Hcases as [[-> Hall] |
        (l1 & p & l2 & -> & -> & Hp & Hbw & Hl1 & Hl2)].
      * left. split; [reflexivity|].
        intros c' [<- | Hin] Hc'; [congruence | auto].
      * right. exists (c :: l1), p, l2. simpl.
        repeat split; try assumption.
        intros c' [<- | Hin] Hc'; [congruence | auto].
Qed.

Lemma scan_keeps l : forall best bw,
  (forall c, In c l -> is_candidate c = true -> (weight c <= bw)%Q) ->
  scan l best bw = Some best.
Proof.
  induction l as [|c next IH]; intros best bw Hall; [reflexivity|].
  destruct (is_candidate c) eqn:Hc.
  - rewrite (scan_weighs _ _ _ _ Hc).
    assert (Hle : Qltb bw (weight c) = false).
    { apply Qltb_false. apply Hall; simpl; auto. }
    rewrite Hle. apply IH. intros c' Hin. apply Hall. simpl. auto.
  - rewrite (scan_skips _ _ _ _ Hc).
    apply IH. intros c' Hin. apply Hall. simpl. auto.
Qed.

Lemma scan_wins p l2 l1 : forall best bw,
  is_candidate p = true ->
  (bw < weight p)%Q ->
  (forall c, In c l1 -> is_candidate c = true -> (weight c < weight p)%Q) ->
  (forall c, In c l2 -> is_candidate c = true -> (weight c <= weight p)%Q) ->
  scan (l1 ++ p :: l2) best bw = Some (Some p).
Proof.
  induction l1 as [|c next IH]; intros best bw Hp Hbw Hl1 Hl2.
  - simpl app. rewrite (scan_weighs _ _ _ _ Hp).
    apply Qltb_true in Hbw. rewrite Hbw. apply scan_keeps, Hl2.
  - rewrite <- app_comm_cons.
    assert (Hnext : forall c', In c' next -> is_candidate c' = true ->
                               (weight c' < weight p)%Q).
    { intros c' Hin. apply Hl1. simpl. auto. }
    destruct (is_candidate c) eqn:Hc.
    + rewrite (scan_weighs _ _ _ _ Hc).
      destruct (Qltb bw (weight c)); apply IH; auto.
      apply Hl1; simpl; auto.
    + rewrite (scan_skips _ _ _ _ Hc). apply IH; auto.
Qed.

(** ** The outcome of [update_candidate_process] *)

Lemma update_candidate_process_total l :
  exists r, update_candidate_process l = Some r.
Proof.
  destruct (scan_spec l None 0%Q) as (r & Hr & _). exists r. exact Hr.
Qed.

Lemma update_candidate_process_Some l p :
  update_candidate_process l = Some (Some p) ->
  exists l1 l2,
    l = l1 ++ p :: l2 /\
    is_candidate p = true /\ (0 < weight p)%Q /\
    (forall c, In c l1 -> is_candidate c = true -> (weight c < weight p)%Q) /\
    (forall c, In c l2 -> is_candidate c = true -> (weight c <= weight p)%Q).
Proof.
  unfold update_candidate_process. intro H.
  destruct (scan_spec l None 0%Q) as (r & Hr & Hcases).
  rewrite H in Hr. inversion Hr; subst r. clear Hr.
  destruct Hcases as [[Habs _] |
    (l1 & p' & l2 & Hl & Hp' & Hc & Hbw & Hl1 & Hl2)]; [discriminate|].
  inversion Hp'; subst p'. exists l1, l2. auto.
Qed.

Lemma update_candidate_process_None l :
  update_candidate_process l = Some None <->
  forall c, In c l -> is_candidate c = true -> (weight c <= 0)%Q.
Proof.
  unfold update_candidate_process. split.
  - intro H. destruct (scan_spec l None 0%Q) as (r & Hr & Hcases).
    rewrite H in Hr. inversion Hr; subst r. clear Hr.
    destruct Hcases as [[_ Hall] | (l1 & p & l2 & _ & Hp & _)];
      [assumption | discriminate].
  - apply scan_keeps.
Qed.

Lemma update_candidate_process_In l p :
  update_candidate_process l = Some (Some p) ->
  In p l /\ is_candidate p = true /\ (0 < weight p)%Q.
Proof.
  intro H. apply update_candidate_process_Some in H.
  destruct H as (l1 & l2 & -> & Hc & Hw & _).
  split; [apply in_or_app; simpl; auto | auto].
Qed.

(** A record that is not a candidate is never the outcome, whatever the
    list it is scanned in. *)
Lemma update_candidate_process_not p l :
  is_candidate p = false \/ (weight p <= 0)%Q ->
  exists r, update_candidate_process l = Some r /\ r <> Some p.
Proof.
  intro Hp. destruct (update_candidate_process_total l) as [r Hr].
  exists r. split; [assumption|]. intros ->.
  apply update_candidate_process_In in Hr. destruct Hr as (_ & Hc & Hw).
  destruct Hp as [Hp | Hp]; [congruence | lra].
Qed.

(** ** Properties every node of the list has *)

Section Everywhere.

Variable P : process -> Prop.
Hypothesis P_update :
  forall now e pid0 proc, P (snd (update_process_stats now e pid0 proc)).

Lemma add_pid_to_list_Forall now e pid0 l :
  Forall P l -> Forall P (fst (add_pid_to_list now e pid0 l)).
Proof.
  intro H.
  destruct (in_dec Z.eq_dec pid0 (pids l)) as [Hin | Hnot].
  - destruct (add_pid_to_list_present now e pid0 l Hin)
      as (l1 & old & l2 & -> & _ & _ & Hadd).
    simpl in Hadd. rewrite Hadd. simpl.
    apply Forall_app in H. destruct H as [H1 H2].
    apply Forall_app. split; [assumption|].
    inversion H2; subst. constructor; [apply P_update | assumption].
  - rewrite (add_pid_to_list_absent now e pid0 l Hnot).
    destruct (ext_malloc e) as [new|]; [|assumption].
    simpl. destruct (fst (update_process_stats now e pid0 new)); simpl;
      [constructor; [apply P_update | assumption] | assumption].
Qed.

Lemma merge_Forall now obs : forall l,
  Forall P l -> Forall P (fst (merge now obs l)).
Proof.
  induction obs as [|[pid0 e] rest IH]; intros l H.
  - exact H.
  - rewrite merge_cons. simpl. apply IH, add_pid_to_list_Forall, H.
Qed.

Lemma remove_expired_processes_Forall now l :
  Forall P l -> Forall P (remove_expired_processes now l).
Proof.
  rewrite !Forall_forall. intros H q Hq.
  apply remove_expired_processes_In in Hq. apply H. tauto.
Qed.

Lemma profile_forever_Forall ticks : forall s,
  Forall P (head s) -> Forall P (head (fst (profile_forever ticks s))).
Proof.
  induction ticks as [|obs rest IH]; intros s H.
  - exact H.
  - rewrite profile_forever_cons. simpl fst. apply IH.
    rewrite profile_iteration_eq. simpl.
    apply remove_expired_processes_Forall, merge_Forall, H.
Qed.

End Everywhere.

(** Every node the list ever holds with [skip = false] is above the
    eligibility threshold. *)
Lemma list_above_threshold ticks obs :
  Forall (fun q => skip q = false -> ELIGIBILITY_THRESHOLD < anon_size q)
         (merged_list obs (state_after ticks)) /\
  Forall (fun q => skip q = false -> ELIGIBILITY_THRESHOLD < anon_size q)
         (head (state_after ticks)).
Proof.
  assert (H : Forall (fun q => skip q = false ->
                               ELIGIBILITY_THRESHOLD < anon_size q)
                     (head (state_after ticks))).
  { apply profile_forever_Forall.
    - intros. apply update_process_stats_above. assumption.
    - constructor. }
  split; [|exact H].
  apply merge_Forall; [|exact H].
  intros. apply update_process_stats_above. assumption.
Qed.

Lemma skipped_not_candidate (q : process) :
  skip q = true -> is_candidate q = false.
Proof. unfold is_candidate. intros ->. reflexivity. Qed.

(** * The claims *)

(** C1.  [update_process_stats], applied to any observed pid, returns true
    and leaves [skip = false] exactly when the huge-page statistics are
    refreshed, the refreshed [anon_size] is strictly above
    [ELIGIBILITY_THRESHOLD] and the translation overhead is refreshed; in
    every other case it sets [skip = true] and returns false.  A record
    whose [anon_size] is at or below the threshold after the update has
    [skip = true], is no candidate of the scan and is never its outcome;
    and no node the list ever holds, between two ticks or while a tick
    merges its observations, has [skip = false] with an [anon_size] at
    or below the threshold. *)
Theorem update_process_stats_eligibility now e pid0 proc :
  let r := update_process_stats now e pid0 proc in
  ((fst r = true /\ skip (snd r) = false) <->
   (exists size thp o,
      ext_thp e = Available (size, thp) /\
      ELIGIBILITY_THRESHOLD < size /\
      ext_perf e = Available o)) /\
  ((fst r = true /\ skip (snd r) = false /\
    ELIGIBILITY_THRESHOLD < anon_size (snd r)) \/
   (fst r = false /\ skip (snd r) = true)) /\
  (anon_size (snd r) <= ELIGIBILITY_THRESHOLD ->
   fst r = false /\ skip (snd r) = true /\ is_candidate (snd r) = false /\
   forall l, exists b, update_candidate_process l = Some b /\ b <> Some (snd r)) /\
  (forall ticks obs q,
     In q (merged_list obs (state_after ticks)) ->
     anon_size q <= ELIGIBILITY_THRESHOLD ->
     skip q = true /\ is_candidate q = false).
Proof.
  intro r.
  pose proof (update_process_stats_skip now e pid0 proc) as Hskip.
  pose proof (update_process_stats_above now e pid0 proc) as Habove.
  fold r in Hskip, Habove.
  assert (Hlow : anon_size (snd r) <= ELIGIBILITY_THRESHOLD ->
                 skip (snd r) = true).
  { intro Hle. destruct (skip (snd r)); [reflexivity|].
    specialize (Habove eq_refl). lia. }
  split; [|split; [|split]].
  - split.
    + intros [Hok _]. apply (update_process_stats_true now e pid0 proc), Hok.
    + intros (size & thp & o & Ht & Hlt & Hp). subst r.
      rewrite (update_process_stats_fresh _ _ _ _ _ _ _ Ht Hlt Hp). auto.
  - destruct (fst r); simpl in Hskip.
    + left. auto.
    + right. auto.
  - intro Hle. specialize (Hlow Hle). rewrite Hlow in Hskip.
    repeat split.
    + destruct (fst r); [discriminate | reflexivity].
    + assumption.
    + apply skipped_not_candidate, Hlow.
    + intro l. apply update_candidate_process_not. left.
      apply skipped_not_candidate, Hlow.
  - intros ticks obs q Hq Hle.
    destruct (list_above_threshold ticks obs) as [Hall _].
    rewrite Forall_forall in Hall. specialize (Hall q Hq).
    assert (Hs : skip q = true).
    { destruct (skip q); [reflexivity|]. specialize (Hall eq_refl). lia. }
    split; [assumption | apply skipped_not_candidate, Hs].
Qed.

(** C2.  The prune at the end of a tick removes exactly the nodes whose
    [timestamp] is strictly below the current clock value.  As long as
    the clock has not wrapped around: a node of a pid that the tick does
    not observe goes through the merge untouched, with a [timestamp]
    below the clock value; a pid that was in the list before the tick
    and is absent from the tick's input is gone after the tick;
    and no node inserted or updated during the tick (a node of an
    observed pid, which carries the current clock value) is removed by
    the tick's prune. *)
Theorem prune_after_tick ticks obs :
  let s := state_after ticks in
  let s' := fst (profile_iteration obs s) in
  head s' = filter (fun q => negb (timestamp q <? current_timestamp s))
                   (merged_list obs s) /\
  (forall q, In q (head s') <->
             In q (merged_list obs s) /\ ~ timestamp q < current_timestamp s) /\
  (Z.of_nat (length ticks) < ULONG_MODULUS ->
   (forall q, In q (head s) -> ~ In (pid q) (obs_pids obs) ->
              In q (merged_list obs s) /\
              timestamp q < current_timestamp s) /\
   (forall p, In p (pids (head s)) -> ~ In p (obs_pids obs) ->
              ~ In p (pids (head s'))) /\
   (forall q, In q (merged_list obs s) -> In (pid q) (obs_pids obs) ->
              timestamp q = current_timestamp s /\ In q (head s'))).
Proof.
  intros s s'. subst s'. split; [|split].
  - rewrite profile_iteration_eq. simpl.
    apply remove_expired_processes_filter.
  - intro q. rewrite profile_iteration_eq. simpl.
    apply remove_expired_processes_In.
  - intro Hlen. pose proof (state_after_between ticks Hlen) as Hs.
    fold s in Hs. split; [|split].
    + intros q Hq Hnot. split.
      * apply merge_keeps; assumption.
      * destruct Hs as (_ & _ & Hold). rewrite Forall_forall in Hold.
        apply Hold, Hq.
    + intros p Hp Hnot Hin. unfold pids in Hin.
      apply in_map_iff in Hin. destruct Hin as (q & Hq & Hin).
      apply (profile_iteration_list obs s q Hs) in Hin.
      destruct Hin as [_ Hin]. congruence.
    + intros q Hq Hin.
      assert (Hq' : In q (head (fst (profile_iteration obs s)))).
      { apply (profile_iteration_list obs s q Hs). auto. }
      split; [|assumption].
      apply (profile_iteration_stamps obs s q Hs Hq').
Qed.

(** C3.  Whatever the ticks and their input lists, repeated pids
    included, the list never holds two nodes with the same pid, neither
    between two ticks nor while the observations of a tick are merged.
    Observing a pid that is already in the list updates the existing
    record: the first node with that pid is replaced, where it stands,
    by what [update_process_stats] makes of it, every other node stays
    as it is, and so the list keeps its length and its pids; no second
    node is added. *)
Theorem list_pids_unique ticks obs :
  NoDup (pids (head (state_after ticks))) /\
  NoDup (pids (merged_list obs (state_after ticks))) /\
  (forall now e pid0 l,
     In pid0 (pids l) ->
     (exists l1 old l2,
        l = l1 ++ old :: l2 /\
        ~ In pid0 (pids l1) /\
        pid old = pid0 /\
        fst (add_pid_to_list now e pid0 l)
        = l1 ++ snd (update_process_stats now e pid0 old) :: l2) /\
     length (fst (add_pid_to_list now e pid0 l)) = length l /\
     pids (fst (add_pid_to_list now e pid0 l)) = pids l).
Proof.
  assert (H : NoDup (pids (head (state_after ticks)))).
  { apply profile_forever_NoDup. constructor. }
  split; [exact H | split].
  - apply merge_NoDup, H.
  - intros now e pid0 l Hin.
    destruct (add_pid_to_list_present now e pid0 l Hin)
      as (l1 & old & l2 & Hl & Hl1 & Hold & Hadd).
    simpl in Hadd. split; [|split].
    + exists l1, old, l2. rewrite Hadd. auto.
    + rewrite Hadd, Hl. simpl. rewrite !length_app. reflexivity.
    + destruct (add_pid_to_list_pids now e pid0 l) as [Hp | [Hnot _]];
        [assumption | tauto].
Qed.

(** C4, as amended.  Observing a pid that is not in the list: when
    [malloc] fails the list is unchanged and nothing is emitted; when the
    update of the new record fails the record is not inserted and nothing
    is emitted; when it succeeds the record is inserted at the head and
    exactly two hints are emitted, first 1000 and then
    [max(1, (int)overhead)], which is [max(1, floor(overhead))] whenever
    the overhead is below [2^31]. *)
Theorem add_pid_to_list_new now e pid0 l :
  ~ In pid0 (pids l) ->
  match ext_malloc e with
  | None => add_pid_to_list now e pid0 l = (l, [])
  | Some new =>
      let r := update_process_stats now e pid0 new in
      (fst r = false -> add_pid_to_list now e pid0 l = (l, [])) /\
      (fst r = true ->
       add_pid_to_list now e pid0 l
       = (snd r :: l,
          [(pid0, 1000); (pid0, max 1 (cast_int (overhead (snd r))))]) /\
       ((overhead (snd r) < 2147483648)%Q ->
        max 1 (cast_int (overhead (snd r)))
        = Z.max 1 (Qfloor (overhead (snd r)))))
  end.
Proof.
  intro Hnot. rewrite (add_pid_to_list_absent now e pid0 l Hnot).
  destruct (ext_malloc e) as [new|]; [|reflexivity].
  cbv zeta. split.
  - intros ->. reflexivity.
  - intros ->. split; [reflexivity | apply cast_int_floor_clamped].
Qed.

(** C5, as amended.  Observing a pid that is in the list updates its
    node in place and emits exactly one hint, [max(1, (int)overhead)] of
    the overhead the node holds after the update, whether the update
    succeeded or not; that value is [max(1, floor(overhead))] whenever
    the overhead is below [2^31].  Every hint ever emitted is at least 1,
    and for every overhead below [2^31] the truncating cast of the source
    gives, under the clamp at 1, the value the floor gives. *)
Theorem add_pid_to_list_tracked now e pid0 l :
  (In pid0 (pids l) ->
   exists l1 old l2,
     l = l1 ++ old :: l2 /\
     ~ In pid0 (pids l1) /\
     pid old = pid0 /\
     let proc' := snd (update_process_stats now e pid0 old) in
     add_pid_to_list now e pid0 l
     = (l1 ++ proc' :: l2, [(pid0, max 1 (cast_int (overhead proc')))]) /\
     ((overhead proc' < 2147483648)%Q ->
      max 1 (cast_int (overhead proc')) = Z.max 1 (Qfloor (overhead proc')))) /\
  Forall (fun h : hint => 1 <= snd h) (snd (add_pid_to_list now e pid0 l)) /\
  (forall ticks s,
     Forall (fun h : hint => 1 <= snd h) (snd (profile_forever ticks s))) /\
  (forall x : Q,
     (x < 2147483648)%Q -> max 1 (cast_int x) = Z.max 1 (Qfloor x)).
Proof.
  split; [|split; [|split]].
  - intro Hin.
    destruct (add_pid_to_list_present now e pid0 l Hin)
      as (l1 & old & l2 & Hl & Hl1 & Hold & Hadd).
    exists l1, old, l2. repeat split; try assumption.
    apply cast_int_floor_clamped.
  - apply add_pid_to_list_hints.
  - intros ticks s. apply profile_forever_hints.
  - apply cast_int_floor_clamped.
Qed.

Lemma weight_rss_nonpositive (c : process) :
  (rss c <= 0)%Q -> weight c = (-1)%Q.
Proof.
  intro H. unfold weight. apply Qle_bool_iff in H. rewrite H. reflexivity.
Qed.

Lemma scenario_candidates :
  (IS_CONSIDERABLE <= 10)%Q ->
  is_candidate scenario_A = true /\ is_candidate scenario_B = true.
Proof.
  intro H. split; apply is_candidate_spec; simpl; split;
    try reflexivity; lra.
Qed.

Lemma scenario_weights :
  (weight scenario_A == 20)%Q /\ (weight scenario_B == 10)%Q.
Proof. split; reflexivity. Qed.

(** C6.  The scan takes a record for a candidate exactly when
    [skip == false] and [overhead >= IS_CONSIDERABLE], and only the
    candidates matter to it.  Its outcome, when there is one, is a
    candidate strictly heavier than every candidate scanned before it and
    at least as heavy as every candidate scanned after it: the heaviest
    candidate, the first of them on a tie; and a candidate of positive
    weight in that position is the outcome.  There is no outcome when
    there is no candidate, or when every candidate has a non-positive
    weight denominator ([rss], and so also when no candidate has a
    positive [anon_size - anon_thp]); for a positive [IS_CONSIDERABLE]
    these are the only cases without an outcome.  In scenario D the
    weights are 20 and 10 and the outcome is A, in either order of the
    list. *)
Theorem update_candidate_process_selects l :
  (forall c, is_candidate c = true <->
             skip c = false /\ (IS_CONSIDERABLE <= overhead c)%Q) /\
  update_candidate_process l = update_candidate_process (candidates l) /\
  (forall c, get_process_weight c = Some (weight c)) /\
  (exists r, update_candidate_process l = Some r /\
     match r with
     | Some p =>
         exists l1 l2,
           l = l1 ++ p :: l2 /\ is_candidate p = true /\
           (forall c, In c l1 -> is_candidate c = true ->
                      (weight c < weight p)%Q) /\
           (forall c, In c l2 -> is_candidate c = true ->
                      (weight c <= weight p)%Q)
     | None =>
         forall c, In c l -> is_candidate c = true -> (weight c <= 0)%Q
     end) /\
  (forall l1 p l2,
     l = l1 ++ p :: l2 -> is_candidate p = true -> (0 < weight p)%Q ->
     (forall c, In c l1 -> is_candidate c = true -> (weight c < weight p)%Q) ->
     (forall c, In c l2 -> is_candidate c = true -> (weight c <= weight p)%Q) ->
     update_candidate_process l = Some (Some p)) /\
  (candidates l = [] -> update_candidate_process l = Some None) /\
  ((forall c, In c (candidates l) -> (rss c <= 0)%Q) ->
   update_candidate_process l = Some None) /\
  ((forall c, In c (candidates l) -> anon_size c - anon_thp c <= 0) ->
   update_candidate_process l = Some None) /\
  ((0 < IS_CONSIDERABLE)%Q ->
   update_candidate_process l = Some None ->
   forall c, In c (candidates l) -> (rss c <= 0)%Q) /\
  ((weight scenario_A == 20)%Q /\ (weight scenario_B == 10)%Q) /\
  ((IS_CONSIDERABLE <= 10)%Q ->
   update_candidate_process [scenario_A; scenario_B] = Some (Some scenario_A) /\
   update_candidate_process [scenario_B; scenario_A] = Some (Some scenario_A)).
Proof.
  assert (Hnone : forall Q : process -> Prop,
             (forall c, Q c -> (weight c <= 0)%Q) ->
             (forall c, In c (candidates l) -> Q c) ->
             update_candidate_process l = Some None).
  { intros Q HQ Hall. apply update_candidate_process_None.
    intros c Hin Hc. apply HQ, Hall. apply filter_In. auto. }
  split; [intro c; apply is_candidate_spec|].
  split; [apply scan_candidates|].
  split; [intro c; apply get_process_weight_total|].
  split; [|split; [|split; [|split; [|split; [|split;
    [|split; [exact scenario_weights | intro H; split]]]]]]].
  - destruct (update_candidate_process_total l) as [[p|] Hr].
    + exists (Some p). split; [assumption|].
      destruct (update_candidate_process_Some l p Hr)
        as (l1 & l2 & Hl & Hc & _ & Hl1 & Hl2).
      exists l1, l2. auto.
    + exists None. split; [assumption|].
      apply update_candidate_process_None, Hr.
  - intros l1 p l2 -> Hc Hw Hl1 Hl2. apply scan_wins; assumption.
  - intro Hnil. apply (Hnone (fun _ => False)); [tauto|].
    rewrite Hnil. intros c [].
  - apply Hnone. intros c Hc. rewrite (weight_rss_nonpositive c Hc).
    discriminate.
  - apply Hnone. intros c Hc. rewrite (weight_excluded c) by lia.
    discriminate.
  - intros Hpos Hr c Hc. apply filter_In in Hc. destruct Hc as [Hin Hc].
    pose proof (proj1 (update_candidate_process_None l) Hr c Hin Hc) as Hw.
    apply is_candidate_spec in Hc. destruct Hc as [_ Ho].
    destruct (Qlt_le_dec 0 (rss c)) as [Hrss | Hrss]; [|assumption].
    exfalso. apply (Qle_not_lt _ _ Hw). apply weight_positive.
    split; [apply rss_positive, Hrss | lra].
  - destruct (scenario_candidates H) as [HA HB].
    apply (scan_wins scenario_A [scenario_B] []); auto.
    + reflexivity.
    + intros c [].
    + intros c [<- | []] _. discriminate.
  - destruct (scenario_candidates H) as [HA HB].
    apply (scan_wins scenario_A [] [scenario_B]); auto.
    + reflexivity.
    + intros c [<- | []] _. reflexivity.
    + intros c [].
Qed.

(** C7, as amended.  The [timestamp] of a record is the clock value of
    its last observation, that is of the last run of
    [update_process_stats] on it, whether that run succeeded or failed:
    the update stamps the record before it looks at any metric.  So the
    node of an observed pid carries the current clock value after
    [add_pid_to_list], and after a tick every node of the list carries
    the clock value of that tick and belongs to a pid the tick
    observed. *)
Theorem update_process_stats_stamps now e pid0 proc :
  timestamp (snd (update_process_stats now e pid0 proc)) = now /\
  (forall l q,
     NoDup (pids l) ->
     In q (fst (add_pid_to_list now e pid0 l)) ->
     pid q = pid0 -> timestamp q = now) /\
  (forall ticks obs q,
     Z.of_nat (length ticks) < ULONG_MODULUS ->
     In q (head (fst (profile_iteration obs (state_after ticks)))) ->
     timestamp q = current_timestamp (state_after ticks) /\
     In (pid q) (obs_pids obs)).
Proof.
  split; [apply update_process_stats_timestamp | split].
  - intros l q Hnd Hq Hp.
    destruct (add_pid_to_list_nodes now e pid0 l q Hnd Hq) as [[_ H] | [_ H]];
      [assumption | contradiction].
  - intros ticks obs q Hlen Hq.
    pose proof (state_after_between ticks Hlen) as Hs.
    split; [apply (profile_iteration_stamps obs _ q Hs Hq)|].
    apply (profile_iteration_list obs _ q Hs) in Hq. tauto.
Qed.

(** C8, as amended.  The weight divides by [rss], the whole number of
    1024-units in [anon_size - anon_thp].  A record with
    [anon_size - anon_thp >= 1024] is given the weight
    [overhead / rss * 1024], which is the overhead divided by the
    megabyte-normalized difference once the difference is rounded down
    to a multiple of 1024; it is the outcome of the scan when it is a
    candidate, its overhead is positive and it is the first of the
    heaviest candidates.  A record with [anon_size - anon_thp < 1024],
    positive or not, is given -1 and is never the outcome. *)
Theorem get_process_weight_scored (p : process) :
  let d := anon_size p - anon_thp p in
  (1024 <= d ->
   get_process_weight p = Some (overhead p / rss p * 1024)%Q /\
   (overhead p / rss p * 1024
    == overhead p / (inject_Z (1024 * Z.quot d 1024) / 1048576))%Q /\
   (forall l1 l2,
      is_candidate p = true -> (0 < overhead p)%Q ->
      (forall c, In c l1 -> is_candidate c = true -> (weight c < weight p)%Q) ->
      (forall c, In c l2 -> is_candidate c = true -> (weight c <= weight p)%Q) ->
      update_candidate_process (l1 ++ p :: l2) = Some (Some p))) /\
  (d < 1024 ->
   get_process_weight p = Some (-1)%Q /\
   forall l, exists r, update_candidate_process l = Some r /\ r <> Some p).
Proof.
  intro d. split.
  - intro Hd. split; [|split].
    + rewrite get_process_weight_total, (weight_scored p Hd). reflexivity.
    + pose proof (proj2 (rss_positive p) Hd) as Hr.
      assert (E : forall o r : Q, (0 < r)%Q ->
                  (o / r * 1024 == o / (1024 * r / 1048576))%Q).
      { intros o r H0. field. lra. }
      rewrite inject_Z_mult. exact (E (overhead p) (rss p) Hr).
    + intros l1 l2 Hc Ho Hl1 Hl2. apply scan_wins; try assumption.
      apply weight_positive. auto.
  - intro Hd. split.
    + rewrite get_process_weight_total, (weight_excluded p Hd). reflexivity.
    + intro l. apply update_candidate_process_not. right.
      rewrite (weight_excluded p Hd). discriminate.
Qed.

(** C9.  A record with [anon_thp >= anon_size], so with a non-positive
    [anon_size - anon_thp], takes the first branch of
    [get_process_weight]: no division happens and the weight is the mark
    -1, so the record is never the outcome of the scan.  For every
    record the weight is either that mark, with [rss <= 0], or the
    quotient by a positive [rss]: the division is never by zero.  The
    scan always ends, and the weight of its outcome is positive, over a
    positive [anon_size - anon_thp]. *)
Theorem malformed_metrics_excluded (p : process) (l : list process) :
  anon_size p - anon_thp p <= 0 ->
  get_process_weight p = Some (-1)%Q /\
  (exists r, update_candidate_process l = Some r /\ r <> Some p) /\
  (forall q,
     ((rss q <= 0)%Q /\ get_process_weight q = Some (-1)%Q) \/
     ((0 < rss q)%Q /\
      get_process_weight q = Some (overhead q / rss q * 1024)%Q)) /\
  (forall q,
     update_candidate_process l = Some (Some q) ->
     0 < anon_size q - anon_thp q /\
     exists w, get_process_weight q = Some w /\ (0 < w)%Q).
Proof.
  intro Hd.
  assert (Hw : weight p = (-1)%Q) by (apply weight_excluded; lia).
  split; [|split; [|split]].
  - rewrite get_process_weight_total, Hw. reflexivity.
  - apply update_candidate_process_not. right. rewrite Hw. discriminate.
  - intro q. rewrite get_process_weight_total.
    destruct (Qlt_le_dec 0 (rss q)) as [Hr | Hr].
    + right. split; [assumption|].
      rewrite weight_scored by (apply rss_positive, Hr). reflexivity.
    + left. split; [assumption|].
      rewrite (weight_rss_nonpositive q Hr). reflexivity.
  - intros q Hq. apply update_candidate_process_In in Hq.
    destruct Hq as (_ & _ & Hpos).
    split.
    + apply weight_positive in Hpos. lia.
    + exists (weight q). split; [apply get_process_weight_total | assumption].
Qed.

(** C10.  The outcome of the scan always has a strictly positive weight:
    the running best weight starts at zero and is only replaced by a
    strictly greater one.  There is no outcome exactly when no candidate
    has a strictly positive weight, candidates of zero or negative weight
    notwithstanding. *)
Theorem update_candidate_process_positive l :
  (forall p,
     update_candidate_process l = Some (Some p) ->
     In p l /\ is_candidate p = true /\
     exists w, get_process_weight p = Some w /\ (0 < w)%Q) /\
  (update_candidate_process l = Some None <->
   forall c, In c l -> is_candidate c = true ->
             exists w, get_process_weight c = Some w /\ (w <= 0)%Q) /\
  (exists r, update_candidate_process l = Some r).
Proof.
  split; [|split].
  - intros p Hp. apply update_candidate_process_In in Hp.
    destruct Hp as (Hin & Hc & Hw). repeat split; try assumption.
    exists (weight p). split; [apply get_process_weight_total | assumption].
  - rewrite update_candidate_process_None. split.
    + intros H c Hin Hc. exists (weight c).
      split; [apply get_process_weight_total | auto].
    + intros H c Hin Hc. destruct (H c Hin Hc) as (w & Hw & Hle).
      rewrite get_process_weight_total in Hw. injection Hw as <-.
      assumption.
  - apply update_candidate_process_total.
Qed.

(** * Further properties of the code *)

(** ** The clock *)

Lemma profile_forever_clock ticks : forall s,
  current_timestamp (fst (profile_forever ticks s)) mod ULONG_MODULUS
  = (current_timestamp s + Z.of_nat (length ticks)) mod ULONG_MODULUS.
Proof.
  induction ticks as [|obs rest IH]; intro s.
  - simpl. rewrite Z.add_0_r. reflexivity.
  - rewrite profile_forever_cons. simpl fst. rewrite IH.
    rewrite profile_iteration_clock.
    simpl length. rewrite Nat2Z.inj_succ.
    rewrite Zplus_mod_idemp_l. f_equal. lia.
Qed.

Lemma profile_forever_clock_range ticks : forall s,
  0 <= current_timestamp s < ULONG_MODULUS ->
  0 <= current_timestamp (fst (profile_forever ticks s)) < ULONG_MODULUS.
Proof.
  induction ticks as [|obs rest IH]; intros s Hs.
  - exact Hs.
  - rewrite profile_forever_cons. simpl fst. apply IH.
    rewrite profile_iteration_clock. apply Z.mod_pos_bound. reflexivity.
Qed.

(** X1.  The clock counts the iterations: after [n] iterations it is
    [n mod 2^64], whatever was observed and whatever the list holds. *)
Theorem clock_counts_iterations ticks :
  current_timestamp (state_after ticks)
  = Z.of_nat (length ticks) mod ULONG_MODULUS.
Proof.
  pose proof (profile_forever_clock ticks initial_state) as H.
  simpl in H. unfold state_after. rewrite <- H.
  symmetry. apply Z.mod_small.
  apply profile_forever_clock_range. simpl. unfold ULONG_MODULUS. lia.
Qed.

(** ** Pruning twice *)

Lemma remove_expired_processes_all_fresh now l :
  remove_expired_processes now l = l <->
  Forall (fun q => now <= timestamp q) l.
Proof.
  split.
  - intro H. apply Forall_forall. intros q Hq. rewrite <- H in Hq.
    apply remove_expired_processes_In in Hq. lia.
  - induction 1 as [|q l Hq Hl IH]; simpl; [reflexivity|].
    destruct (Z.ltb_spec (timestamp q) now); [lia | congruence].
Qed.

(** X2.  Pruning composes: pruning at a time after a pruning at an
    earlier time, in either order, is pruning at the later time alone; in
    particular pruning twice at one time is pruning once.  A prune
    changes nothing exactly when no node is older than the clock. *)
Theorem remove_expired_processes_twice now1 now2 l :
  now1 <= now2 ->
  remove_expired_processes now2 (remove_expired_processes now1 l)
  = remove_expired_processes now2 l /\
  remove_expired_processes now1 (remove_expired_processes now2 l)
  = remove_expired_processes now2 l /\
  (remove_expired_processes now1 l = l <->
   Forall (fun q => now1 <= timestamp q) l).
Proof.
  intro Hle. split; [|split].
  - induction l as [|q l IH]; simpl; [reflexivity|].
    destruct (Z.ltb_spec (timestamp q) now1) as [H1 | H1].
    + destruct (Z.ltb_spec (timestamp q) now2); [assumption | lia].
    + simpl. rewrite IH. reflexivity.
  - apply remove_expired_processes_all_fresh. apply Forall_forall.
    intros q Hq. apply remove_expired_processes_In in Hq. lia.
  - apply remove_expired_processes_all_fresh.
Qed.

(** ** The hints of a tick *)

Lemma add_pid_to_list_hint_pids now e pid0 l :
  Forall (fun h : hint => fst h = pid0) (snd (add_pid_to_list now e pid0 l)) /\
  (length (snd (add_pid_to_list now e pid0 l)) <= 2)%nat.
Proof.
  unfold add_pid_to_list.
  destruct (update_existing now e pid0 l) as [[l' proc']|].
  - simpl. split; [repeat constructor | lia].
  - destruct (ext_malloc e) as [new|]; [|simpl; split; [constructor | lia]].
    destruct (update_process_stats now e pid0 new) as [[] new']; simpl.
    + split; [repeat constructor | lia].
    + split; [constructor | lia].
Qed.

Lemma merge_hints_pids now obs : forall l,
  Forall (fun h : hint => In (fst h) (obs_pids obs)) (snd (merge now obs l)).
Proof.
  induction obs as [|[pid0 e] rest IH]; intro l.
  - constructor.
  - rewrite merge_cons. simpl snd. apply Forall_app. split.
    + destruct (add_pid_to_list_hint_pids now e pid0 l) as [Hp _].
      eapply Forall_impl; [|exact Hp]. simpl. intros h <-. auto.
    + eapply Forall_impl; [|apply IH]. simpl. auto.
Qed.

(** X3.  Hints are only ever sent for pids of the tick's input: every
    hint of a merge carries an observed pid, a single observation sends
    at most two hints, and so a tick sends at most twice as many hints as
    it has observations. *)
Theorem merge_hints_observed now obs l :
  Forall (fun h : hint => In (fst h) (obs_pids obs)) (snd (merge now obs l)) /\
  (length (snd (merge now obs l)) <= 2 * length obs)%nat.
Proof.
  revert l. induction obs as [|[pid0 e] rest IH]; intro l.
  - simpl. split; [constructor | lia].
  - rewrite merge_cons. simpl snd.
    destruct (add_pid_to_list_hint_pids now e pid0 l) as [Hp Hn].
    destruct (IH (fst (add_pid_to_list now e pid0 l))) as [Hr Hm].
    split.
    + apply Forall_app. split.
      * eapply Forall_impl; [|exact Hp]. simpl. intros h <-. auto.
      * eapply Forall_impl; [|exact Hr]. simpl. auto.
    + rewrite length_app. simpl length. lia.
Qed.

(** ** Metrics that are not read *)

(** X4.  When the huge-page statistics are unavailable, or report a size
    at or below the threshold, the performance counters are not read: the
    outcome of the update is the same whatever they would answer, the
    record keeps the overhead it had and is marked [skip]. *)
Theorem update_process_stats_counters_unread now e e' pid0 proc :
  ext_thp e' = ext_thp e ->
  (ext_thp e = Unavailable \/
   exists size thp,
     ext_thp e = Available (size, thp) /\ size <= ELIGIBILITY_THRESHOLD) ->
  update_process_stats now e' pid0 proc = update_process_stats now e pid0 proc /\
  overhead (snd (update_process_stats now e pid0 proc)) = overhead proc /\
  skip (snd (update_process_stats now e pid0 proc)) = true /\
  fst (update_process_stats now e pid0 proc) = false.
Proof.
  intros Hsame Hcase. unfold_update. rewrite Hsame.
  destruct Hcase as [-> | (size & thp & -> & Hle)]; simpl.
  - auto.
  - apply Z.ltb_ge in Hle. rewrite Hle. simpl. auto.
Qed.

(** ** Weights and hints as functions of the metrics *)

(** X5.  Among records that are scored, the weight does not decrease
    when the overhead grows over the same [rss], and, for an overhead
    that is not negative, does not increase when the memory not backed by
    huge pages grows. *)
Theorem weight_monotone (p q : process) :
  1024 <= anon_size p - anon_thp p ->
  1024 <= anon_size q - anon_thp q ->
  ((rss p == rss q)%Q -> (overhead p <= overhead q)%Q ->
   (weight p <= weight q)%Q) /\
  ((overhead p == overhead q)%Q -> (0 <= overhead p)%Q ->
   (rss p <= rss q)%Q -> (weight q <= weight p)%Q).
Proof.
  intros Hp Hq.
  rewrite (weight_scored p Hp), (weight_scored q Hq).
  pose proof (proj2 (rss_positive p) Hp) as Hrp.
  pose proof (proj2 (rss_positive q) Hq) as Hrq.
  assert (Hip : (0 < / rss p)%Q) by (apply Qinv_lt_0_compat, Hrp).
  assert (Hiq : (0 < / rss q)%Q) by (apply Qinv_lt_0_compat, Hrq).
  split.
  - intros Hr Ho. rewrite Hr.
    apply Qmult_le_compat_r; [|discriminate].
    unfold Qdiv. apply Qmult_le_compat_r; [assumption|].
    apply Qlt_le_weak. assumption.
  - intros Ho Hpos Hr. rewrite <- Ho.
    apply Qmult_le_compat_r; [|discriminate].
    unfold Qdiv. rewrite !(Qmult_comm (overhead p)).
    apply Qmult_le_compat_r; [|assumption].
    destruct (Qle_lt_or_eq _ _ Hr) as [Hlt | Heq].
    + apply Qlt_le_weak. apply -> Qinv_lt_contravar; assumption.
    + rewrite Heq. apply Qle_refl.
Qed.

(** X6.  The hint value follows the overhead as long as the overhead is
    below [2^31]: it does not decrease when the overhead increases, it is
    1 for every overhead below 2, and from 1 on it is the overhead with
    its fraction dropped.  From [2^31] on the cast leaves the range of
    [int] and the hint is 1. *)
Theorem hint_value_monotone (x y : Q) :
  ((x <= y)%Q -> (y < 2147483648)%Q ->
   max 1 (cast_int x) <= max 1 (cast_int y)) /\
  ((x < 2)%Q -> max 1 (cast_int x) = 1) /\
  ((1 <= x)%Q -> (x < 2147483648)%Q ->
   (inject_Z (max 1 (cast_int x)) <= x)%Q /\
   (x < inject_Z (max 1 (cast_int x) + 1))%Q) /\
  ((2147483648 <= x)%Q -> max 1 (cast_int x) = 1).
Proof.
  split; [|split; [|split]].
  - intros Hle Hy.
    rewrite (cast_int_floor_clamped y Hy).
    rewrite (cast_int_floor_clamped x) by (eapply Qle_lt_trans; eassumption).
    apply Qfloor_resp_le in Hle. lia.
  - intro H.
    rewrite (cast_int_floor_clamped x)
      by (eapply Qlt_trans; [exact H | reflexivity]).
    assert (Hf : Qfloor x < 2).
    { destruct (Z_lt_le_dec (Qfloor x) 2) as [Hlt | Hge]; [assumption|].
      exfalso. apply (Qlt_not_le _ _ H).
      apply Qle_trans with (inject_Z (Qfloor x)); [|apply Qfloor_le].
      change 2%Q with (inject_Z 2). rewrite <- Zle_Qle. assumption. }
    lia.
  - intros H Hx. rewrite (cast_int_floor_clamped x Hx).
    assert (Hf : 1 <= Qfloor x).
    { change 1 with (Qfloor 1). apply Qfloor_resp_le. assumption. }
    rewrite Z.max_r by assumption.
    split; [apply Qfloor_le | apply Qlt_floor].
  - intro H. rewrite (cast_int_overflow x H). reflexivity.
Qed.

(** ** Which pids the list tracks *)

Lemma update_process_stats_fst_any now now' e pid0 pid0' proc proc' :
  fst (update_process_stats now e pid0 proc)
  = fst (update_process_stats now' e pid0' proc').
Proof.
  destruct (fst (update_process_stats now' e pid0' proc')) eqn:H.
  - apply update_process_stats_true.
    apply (update_process_stats_true now' e pid0' proc'), H.
  - destruct (fst (update_process_stats now e pid0 proc)) eqn:H';
      [|reflexivity].
    apply update_process_stats_true in H'.
    apply (update_process_stats_true now' e pid0' proc') in H'. congruence.
Qed.

(** One observation: the pid is in the list afterwards when it was there
    before or when a block could be had and the update succeeded; other
    pids are there afterwards when they were there before. *)
Lemma add_pid_to_list_tracks now e pid0 l p :
  In p (pids (fst (add_pid_to_list now e pid0 l))) <->
  In p (pids l) \/
  (p = pid0 /\ exists new,
     ext_malloc e = Some new /\
     fst (update_process_stats now e pid0 new) = true).
Proof.
  destruct (in_dec Z.eq_dec pid0 (pids l)) as [Hin | Hnot].
  - destruct (add_pid_to_list_pids now e pid0 l) as [-> | [Hnot _]];
      [|contradiction].
    split; [auto | intros [H | [-> _]]; assumption].
  - rewrite (add_pid_to_list_absent now e pid0 l Hnot).
    destruct (ext_malloc e) as [new|].
    + simpl. destruct (fst (update_process_stats now e pid0 new)) eqn:Hok.
      * simpl. rewrite update_process_stats_pid. split.
        -- intros [<- | H]; [right; split; [reflexivity | eauto] | auto].
        -- intros [H | [-> _]]; auto.
      * simpl. split; [auto|].
        intros [H | [_ (new' & Hnew & Hok')]]; [assumption|].
        rewrite (update_process_stats_fst_any now now e pid0 pid0 new new')
          in Hok. congruence.
    + simpl. split; [auto|].
      intros [H | [_ (new' & Hnew & _)]]; [assumption | discriminate].
Qed.

Lemma merge_tracks now obs : forall l p,
  In p (pids (fst (merge now obs l))) <->
  In p (pids l) \/
  exists e new,
    In (p, e) obs /\ ext_malloc e = Some new /\
    fst (update_process_stats now e p new) = true.
Proof.
  induction obs as [|[pid0 e] rest IH]; intros l p.
  - simpl. split; [auto | intros [H | (e & new & [] & _)]; assumption].
  - rewrite merge_cons. simpl fst. rewrite IH, add_pid_to_list_tracks.
    split.
    + intros [[H | [-> (new & Hnew & Hok)]] | (e' & new & Hin & Hnew & Hok)].
      * auto.
      * right. exists e, new. simpl. auto.
      * right. exists e', new. simpl. auto.
    + intros [H | (e' & new & [Heq | Hin] & Hnew & Hok)].
      * auto.
      * injection Heq as <- <-. left. right. split; [reflexivity | eauto].
      * right. exists e', new. auto.
Qed.

(** X7.  What a tick tracks.  During the merge a pid is in the list when
    it was there before, or when one of its observations could get a
    block and passed the update.  After the tick, as long as the clock
    has not wrapped around, the list tracks exactly the observed pids
    among those. *)
Theorem tracked_after_tick ticks obs p :
  let s := state_after ticks in
  (In p (pids (merged_list obs s)) <->
   In p (pids (head s)) \/
   exists e new,
     In (p, e) obs /\ ext_malloc e = Some new /\
     fst (update_process_stats (current_timestamp s) e p new) = true) /\
  (Z.of_nat (length ticks) < ULONG_MODULUS ->
   (In p (pids (head (fst (profile_iteration obs s)))) <->
    In p (obs_pids obs) /\
    (In p (pids (head s)) \/
     exists e new,
       In (p, e) obs /\ ext_malloc e = Some new /\
       fst (update_process_stats (current_timestamp s) e p new) = true))).
Proof.
  intro s. split; [apply merge_tracks|].
  intro Hlen. pose proof (state_after_between ticks Hlen) as Hs. fold s in Hs.
  rewrite <- (merge_tracks (current_timestamp s) obs (head s) p).
  fold (merged_list obs s). unfold pids at 1. rewrite in_map_iff. split.
  - intros (q & <- & Hq). apply (profile_iteration_list obs s q Hs) in Hq.
    destruct Hq as [Hq Hin]. split; [assumption|]. apply in_map. assumption.
  - intros [Hin Hp]. unfold pids in Hp. apply in_map_iff in Hp.
    destruct Hp as (q & <- & Hq). exists q. split; [reflexivity|].
    apply (profile_iteration_list obs s q Hs). auto.
Qed.

(** ** Nodes of pids that are not observed *)

Lemma filter_andb {A} (f g : A -> bool) (l : list A) :
  filter (fun x => f x && g x) l = filter f (filter g l).
Proof.
  induction l as [|x l IH]; simpl; [reflexivity|].
  destruct (g x); simpl.
  - rewrite andb_true_r. destruct (f x); congruence.
  - rewrite andb_false_r. assumption.
Qed.

Lemma filter_commute {A} (f g : A -> bool) (l : list A) :
  filter f (filter g l) = filter g (filter f l).
Proof.
  rewrite <- !filter_andb. apply filter_ext. intro x. apply andb_comm.
Qed.

Lemma add_pid_to_list_others now e pid0 l :
  filter (fun q => negb (pid q =? pid0)) (fst (add_pid_to_list now e pid0 l))
  = filter (fun q => negb (pid q =? pid0)) l.
Proof.
  destruct (in_dec Z.eq_dec pid0 (pids l)) as [Hin | Hnot].
  - destruct (add_pid_to_list_present now e pid0 l Hin)
      as (l1 & old & l2 & -> & _ & Hold & Hadd).
    simpl in Hadd. rewrite Hadd. simpl fst.
    rewrite !filter_app. simpl.
    rewrite update_process_stats_pid, Hold, Z.eqb_refl. reflexivity.
  - rewrite (add_pid_to_list_absent now e pid0 l Hnot).
    destruct (ext_malloc e) as [new|]; [|reflexivity].
    simpl. destruct (fst (update_process_stats now e pid0 new));
      [|reflexivity].
    simpl. rewrite update_process_stats_pid, Z.eqb_refl. reflexivity.
Qed.

Lemma filter_unobserved_cons pid0 rest l :
  filter (fun q => negb (existsb (Z.eqb (pid q)) (pid0 :: rest))) l
  = filter (fun q => negb (pid q =? pid0))
           (filter (fun q => negb (existsb (Z.eqb (pid q)) rest)) l).
Proof.
  rewrite <- filter_andb. apply filter_ext. intro q. simpl. apply negb_orb.
Qed.

(** X8.  A merge does not touch the nodes of pids it does not observe:
    they are the same records, in the same order, before and after. *)
Theorem merge_leaves_unobserved now obs l :
  filter (fun q => negb (existsb (Z.eqb (pid q)) (obs_pids obs)))
         (fst (merge now obs l))
  = filter (fun q => negb (existsb (Z.eqb (pid q)) (obs_pids obs))) l.
Proof.
  revert l. induction obs as [|[pid0 e] rest IH]; intro l.
  - reflexivity.
  - rewrite merge_cons. simpl fst.
    change (obs_pids ((pid0, e) :: rest)) with (pid0 :: obs_pids rest).
    rewrite !filter_unobserved_cons, IH, filter_commute.
    rewrite add_pid_to_list_others. apply filter_commute.
Qed.

(** ** Observing a pid twice *)

Lemma update_process_stats_again now e pid0 proc :
  snd (update_process_stats now e pid0
         (snd (update_process_stats now e pid0 proc)))
  = snd (update_process_stats now e pid0 proc).
Proof.
  unfold_update.
  destruct (ext_thp e) as [[size thp]|]; simpl.
  - destruct (ELIGIBILITY_THRESHOLD <? size) eqn:Hlt; simpl.
    + destruct (ext_perf e) as [o|]; simpl; rewrite ?Hlt; reflexivity.
    + rewrite ?Hlt. reflexivity.
  - reflexivity.
Qed.

Lemma update_existing_again now e pid0 l :
  forall l' proc',
    update_existing now e pid0 l = Some (l', proc') ->
    update_existing now e pid0 l' = Some (l', proc').
Proof.
  induction l as [|proc next IH]; intros l' proc' H; simpl in H.
  - discriminate.
  - destruct (Z.eqb_spec (pid proc) pid0) as [Heq | Hne].
    + injection H as <- <-. simpl.
      rewrite update_process_stats_pid, Z.eqb_refl.
      rewrite update_process_stats_again. reflexivity.
    + destruct (update_existing now e pid0 next) as [[next' p']|] eqn:Hn;
        [|discriminate].
      injection H as <- <-. simpl.
      destruct (Z.eqb_spec (pid proc) pid0); [contradiction|].
      rewrite (IH _ _ eq_refl). reflexivity.
Qed.

(** X9.  Listing a pid twice in one tick with the same answers of the
    outside world leaves the list as listing it once does; the second
    observation only sends one more hint when the pid is tracked. *)
Theorem add_pid_to_list_again now e pid0 l :
  let once := add_pid_to_list now e pid0 l in
  let twice := add_pid_to_list now e pid0 (fst once) in
  fst twice = fst once /\
  (In pid0 (pids (fst once)) -> length (snd twice) = 1%nat) /\
  (~ In pid0 (pids (fst once)) -> snd twice = [] /\ snd once = []).
Proof.
  intros once twice.
  assert (Hfst : fst twice = fst once).
  { subst once twice. unfold add_pid_to_list at 2 3.
    destruct (update_existing now e pid0 l) as [[l' proc']|] eqn:Hl.
    - simpl. unfold add_pid_to_list.
      rewrite (update_existing_again _ _ _ _ _ _ Hl). reflexivity.
    - destruct (ext_malloc e) as [new|] eqn:Hm.
      + destruct (update_process_stats now e pid0 new) as [ok new'] eqn:Hu.
        destruct ok; simpl.
        * unfold add_pid_to_list. simpl.
          assert (Hp : pid new' = pid0).
          { change new' with (snd (true, new')). rewrite <- Hu.
            apply update_process_stats_pid. }
          rewrite Hp, Z.eqb_refl. simpl.
          change new' with (snd (true, new')) at 1. rewrite <- Hu.
          rewrite update_process_stats_again. rewrite Hu. reflexivity.
        * unfold add_pid_to_list. rewrite Hl, Hm, Hu. reflexivity.
      + simpl. unfold add_pid_to_list. rewrite Hl, Hm. reflexivity. }
  split; [exact Hfst | split].
  - intro Hin. subst twice.
    destruct (add_pid_to_list_present now e pid0 (fst once) Hin)
      as (l1 & old & l2 & _ & _ & _ & Hadd).
    simpl in Hadd. rewrite Hadd. reflexivity.
  - intro Hnot.
    assert (Hl : ~ In pid0 (pids l)).
    { intro Hin. apply Hnot. subst once.
      apply add_pid_to_list_tracks. auto. }
    assert (Honce : snd once = [] /\ fst once = l).
    { subst once. rewrite (add_pid_to_list_absent now e pid0 l Hl) in *.
      destruct (ext_malloc e) as [new|]; [|auto].
      simpl in *. destruct (fst (update_process_stats now e pid0 new));
        [|auto].
      exfalso. apply Hnot. simpl. rewrite update_process_stats_pid. auto. }
    destruct Honce as [Hout Hsame]. split; [|assumption].
    subst twice. rewrite Hsame. exact Hout.
Qed.

(** ** The order of the list *)

Lemma update_candidate_process_max l p :
  update_candidate_process l = Some (Some p) ->
  forall c, In c l -> is_candidate c = true -> (weight c <= weight p)%Q.
Proof.
  intros H c Hin Hc.
  destruct (update_candidate_process_Some l p H)
    as (l1 & l2 & -> & _ & _ & Hl1 & Hl2).
  apply in_app_or in Hin. destruct Hin as [Hin | [<- | Hin]].
  - apply Qlt_le_weak. auto.
  - apply Qle_refl.
  - auto.
Qed.

(** X10.  The order of the list matters to the scan only on ties: two
    lists with the same records either both have no outcome, or have
    outcomes of equal weight. *)
Theorem update_candidate_process_order l l' :
  (forall q, In q l <-> In q l') ->
  match update_candidate_process l, update_candidate_process l' with
  | Some (Some p), Some (Some p') => (weight p == weight p')%Q
  | Some None, Some None => True
  | _, _ => False
  end.
Proof.
  intro Hsame.
  destruct (update_candidate_process_total l) as [[p|] Hl];
    destruct (update_candidate_process_total l') as [[p'|] Hl'];
    rewrite Hl, Hl'.
  - destruct (update_candidate_process_In l p Hl) as (Hin & Hc & _).
    destruct (update_candidate_process_In l' p' Hl') as (Hin' & Hc' & _).
    apply Qle_antisym.
    + apply (update_candidate_process_max l' p' Hl'); [apply Hsame|]; auto.
    + apply (update_candidate_process_max l p Hl); [apply Hsame|]; auto.
  - destruct (update_candidate_process_In l p Hl) as (Hin & Hc & Hw).
    apply (Qlt_not_le _ _ Hw).
    apply (proj1 (update_candidate_process_None l') Hl'); [apply Hsame|]; auto.
  - destruct (update_candidate_process_In l' p' Hl') as (Hin & Hc & Hw).
    apply (Qlt_not_le _ _ Hw).
    apply (proj1 (update_candidate_process_None l) Hl); [apply Hsame|]; auto.
  - exact I.
Qed.

(** ** The log of a tick *)

Lemma log_process_info_pids l :
  map (fun row : Z * Z * Z * Z => fst (fst (fst row))) (log_process_info l)
  = pids l.
Proof.
  induction l as [|proc next IH]; simpl; congruence.
Qed.

(** X11.  The log has one row per node of the list, in list order, and
    the row of a node holds its pid, [anon_size / 2048], [anon_thp / 2048]
    and [(int)overhead]; for a node with [0 <= anon_thp <= anon_size] the
    huge pages logged as present, [anon_thp / 2048], lie between 0 and the
    huge pages logged as required, [anon_size / 2048].  As long as the
    clock has not wrapped around, the log written at the end of a tick
    lists every pid at most once and only pids the tick observed. *)
Theorem log_process_info_after_tick ticks obs :
  let s' := fst (profile_iteration obs (state_after ticks)) in
  let row_pid := fun row : Z * Z * Z * Z => fst (fst (fst row)) in
  (forall l,
     log_process_info l
     = map (fun proc =>
              (pid proc, Z.quot (anon_size proc) 2048,
               Z.quot (anon_thp proc) 2048, cast_int (overhead proc))) l) /\
  (forall l proc,
     In proc l -> 0 <= anon_thp proc <= anon_size proc ->
     In (pid proc, Z.quot (anon_size proc) 2048,
         Z.quot (anon_thp proc) 2048, cast_int (overhead proc))
        (log_process_info l) /\
     0 <= Z.quot (anon_thp proc) 2048 <= Z.quot (anon_size proc) 2048) /\
  (Z.of_nat (length ticks) < ULONG_MODULUS ->
   NoDup (map row_pid (log_process_info (head s'))) /\
   forall row, In row (log_process_info (head s')) ->
               In (row_pid row) (obs_pids obs)).
Proof.
  intros s' row_pid.
  assert (Hmap : forall l,
            log_process_info l
            = map (fun proc =>
                     (pid proc, Z.quot (anon_size proc) 2048,
                      Z.quot (anon_thp proc) 2048,
                      cast_int (overhead proc))) l).
  { induction l as [|q l IH]; simpl; congruence. }
  split; [exact Hmap | split].
  - intros l proc Hin [H0 Hle]. split.
    + rewrite Hmap.
      apply (in_map (fun proc =>
                       (pid proc, Z.quot (anon_size proc) 2048,
                        Z.quot (anon_thp proc) 2048,
                        cast_int (overhead proc)))).
      assumption.
    + split.
      * apply Z.quot_pos; lia.
      * apply Z.quot_le_mono; lia.
  - intro Hlen. pose proof (state_after_between ticks Hlen) as Hs.
    subst row_pid. rewrite log_process_info_pids. split.
    + apply profile_iteration_NoDup. apply Hs.
    + intros row Hrow.
      apply (in_map (fun row : Z * Z * Z * Z => fst (fst (fst row)))) in Hrow.
      rewrite log_process_info_pids in Hrow.
      unfold pids in Hrow. apply in_map_iff in Hrow.
      destruct Hrow as (q & Hq & Hin). rewrite <- Hq.
      apply (profile_iteration_list obs _ q Hs) in Hin. tauto.
Qed.

(** ** Blocks that are not in the list *)

Lemma add_pid_to_list_blocks_spec now e pid0 l live :
  fst (add_pid_to_list_blocks now e pid0 l live) = add_pid_to_list now e pid0 l /\
  let live' := snd (add_pid_to_list_blocks now e pid0 l live) in
  let l' := fst (add_pid_to_list now e pid0 l) in
  live - Z.of_nat (length l) <= live' - Z.of_nat (length l') /\
  (~ In pid0 (pids l) ->
   forall new, ext_malloc e = Some new ->
   fst (update_process_stats now e pid0 new) = false ->
   l' = l /\ live' = live + 1).
Proof.
  unfold add_pid_to_list_blocks, add_pid_to_list.
  pose proof (update_existing_spec now e pid0 l) as Hspec.
  destruct (update_existing now e pid0 l) as [[l' proc']|].
  - destruct Hspec as (l1 & old & l2 & -> & _ & Hold & _ & ->).
    simpl. split; [reflexivity|]. split.
    + rewrite !length_app. simpl. lia.
    + intros Hnot. exfalso. apply Hnot. rewrite pids_app.
      apply in_or_app. right. simpl. auto.
  - destruct (ext_malloc e) as [new|].
    + destruct (update_process_stats now e pid0 new) as [[] new'] eqn:Hu;
        simpl; (split; [reflexivity|]); split.
      * lia.
      * intros _ new0 Hnew Hok. injection Hnew as <-.
        rewrite Hu in Hok. discriminate.
      * lia.
      * auto.
    + simpl. split; [reflexivity|]. split; [lia|].
      intros _ new Hnew. discriminate.
Qed.

Lemma remove_expired_processes_blocks_spec now l : forall live,
  fst (remove_expired_processes_blocks now l live)
  = remove_expired_processes now l /\
  snd (remove_expired_processes_blocks now l live)
  - Z.of_nat (length (remove_expired_processes now l))
  = live - Z.of_nat (length l).
Proof.
  induction l as [|curr next IH]; intro live; simpl.
  - split; [reflexivity | lia].
  - destruct (timestamp curr <? now).
    + destruct (IH (live - 1)) as [H1 H2]. split; [assumption | lia].
    + destruct (IH live) as [H1 H2].
      destruct (remove_expired_processes_blocks now next live) as [rest live'].
      simpl in *. subst rest. split; [reflexivity | lia].
Qed.

Lemma merge_blocks_spec now obs : forall l live,
  fst (merge_blocks now obs l live) = merge now obs l /\
  live - Z.of_nat (length l)
  <= snd (merge_blocks now obs l live)
     - Z.of_nat (length (fst (merge now obs l))).
Proof.
  induction obs as [|[pid0 e] rest IH]; intros l live.
  - simpl. split; [reflexivity | lia].
  - rewrite merge_cons. simpl merge_blocks.
    destruct (add_pid_to_list_blocks_spec now e pid0 l live)
      as (Hfst & Hle & _).
    destruct (add_pid_to_list_blocks now e pid0 l live)
      as [[l1 out1] live1].
    simpl in Hfst, Hle. rewrite <- Hfst in *. simpl in *.
    destruct (IH l1 live1) as [Hm Hle'].
    destruct (merge_blocks now rest l1 live1) as [[l2 out2] live2].
    simpl in *. rewrite <- Hm. simpl. split; [reflexivity|].
    rewrite <- Hm in Hle'. simpl in Hle'. lia.
Qed.

Lemma profile_iteration_blocks_spec obs s live :
  fst (profile_iteration_blocks obs s live) = profile_iteration obs s /\
  live - Z.of_nat (length (head s))
  <= snd (profile_iteration_blocks obs s live)
     - Z.of_nat (length (head (fst (profile_iteration obs s)))).
Proof.
  rewrite profile_iteration_eq. unfold profile_iteration_blocks, merged_list.
  destruct (merge_blocks_spec (current_timestamp s) obs (head s) live)
    as [Hm Hle].
  destruct (merge_blocks (current_timestamp s) obs (head s) live)
    as [[merged out] live1].
  simpl in Hm, Hle. rewrite <- Hm in *. simpl in *.
  destruct (remove_expired_processes_blocks_spec
              (current_timestamp s) merged live1) as [Hr Heq].
  destruct (remove_expired_processes_blocks (current_timestamp s) merged live1)
    as [pruned live2].
  simpl in *. subst pruned. split; [reflexivity | lia].
Qed.

Lemma profile_forever_blocks_spec ticks : forall s live,
  fst (profile_forever_blocks ticks s live) = profile_forever ticks s /\
  live - Z.of_nat (length (head s))
  <= snd (profile_forever_blocks ticks s live)
     - Z.of_nat (length (head (fst (profile_forever ticks s)))).
Proof.
  induction ticks as [|obs rest IH]; intros s live.
  - simpl. split; [reflexivity | lia].
  - rewrite profile_forever_cons. simpl profile_forever_blocks.
    destruct (profile_iteration_blocks_spec obs s live) as [Hi Hle].
    destruct (profile_iteration_blocks obs s live) as [[s1 out1] live1].
    simpl in Hi, Hle. rewrite <- Hi in *. simpl in *.
    destruct (IH s1 live1) as [Hf Hle'].
    destruct (profile_forever_blocks rest s1 live1) as [[s2 out2] live2].
    simpl in *. rewrite <- Hf in *. simpl in *.
    split; [reflexivity | lia].
Qed.

(** X12.  Threading the count of live blocks through the code changes
    neither the list nor the hints.  The number of live blocks that are
    not nodes of the list never goes down, over any run of ticks from any
    state: the prune frees exactly the nodes it unlinks and nothing else
    is ever freed.  It goes up by one whenever a pid that is not in the
    list is observed, [malloc] succeeds and the update fails: the block
    is neither put in the list nor freed. *)
Theorem blocks_outside_list ticks s live :
  fst (profile_forever_blocks ticks s live) = profile_forever ticks s /\
  live - Z.of_nat (length (head s))
  <= snd (profile_forever_blocks ticks s live)
     - Z.of_nat (length (head (fst (profile_forever ticks s)))) /\
  (forall now e pid0 l new,
     ~ In pid0 (pids l) ->
     ext_malloc e = Some new ->
     fst (update_process_stats now e pid0 new) = false ->
     add_pid_to_list_blocks now e pid0 l live = (l, [], live + 1)).
Proof.
  destruct (profile_forever_blocks_spec ticks s live) as [H1 H2].
  split; [exact H1 | split; [exact H2|]].
  intros now e pid0 l new Hnot Hnew Hok.
  destruct (add_pid_to_list_blocks_spec now e pid0 l live) as (Hf & _ & Hstep).
  destruct (Hstep Hnot new Hnew Hok) as [Hl Hlive].
  rewrite (add_pid_to_list_absent now e pid0 l Hnot), Hnew in Hf.
  simpl in Hf. rewrite Hok in Hf.
  destruct (add_pid_to_list_blocks now e pid0 l live) as [[l' out] live'].
  simpl in *. injection Hf as -> ->. rewrite Hlive. reflexivity.
Qed.

Lemma profile_forever_blocks_rejected n pid0 e new :
  ext_malloc e = Some new ->
  fst (update_process_stats 0 e pid0 new) = false ->
  forall clock live,
    let r := profile_forever_blocks (repeat [(pid0, e)] n)
                                    (mkState [] clock) live in
    head (fst (fst r)) = [] /\ snd (fst r) = [] /\ snd r = live + Z.of_nat n.
Proof.
  intros Hnew Hok. induction n as [|n IH]; intros clock live.
  - simpl. repeat split. lia.
  - simpl repeat. simpl profile_forever_blocks.
    unfold profile_iteration_blocks. simpl merge_blocks.
    unfold add_pid_to_list_blocks. simpl update_existing. rewrite Hnew.
    assert (Hok' : fst (update_process_stats clock e pid0 new) = false).
    { rewrite (update_process_stats_fst_any clock 0 e pid0 pid0 new new).
      exact Hok. }
    destruct (update_process_stats clock e pid0 new) as [ok new'].
    simpl in Hok'. subst ok. simpl.
    specialize (IH ((clock + 1) mod ULONG_MODULUS) (live + 1)).
    cbv zeta in IH.
    destruct (profile_forever_blocks (repeat [(pid0, e)] n)
                {| head := []; current_timestamp := (clock + 1) mod ULONG_MODULUS |}
                (live + 1)) as [[s2 out2] live2].
    simpl in *. destruct IH as (H1 & H2 & H3).
    repeat split; [assumption | assumption | lia].
Qed.

(** X13.  A process that never passes the update costs one block per
    tick: after [n] ticks that each list one pid whose update fails,
    with [malloc] succeeding, the list is empty, no hint was sent and [n]
    blocks are live. *)
Theorem rejected_pid_costs_a_block_per_tick n pid0 e new :
  ext_malloc e = Some new ->
  fst (update_process_stats 0 e pid0 new) = false ->
  let r := profile_forever_blocks (repeat [(pid0, e)] n) initial_state 0 in
  head (fst (fst r)) = [] /\ snd (fst r) = [] /\ snd r = Z.of_nat n.
Proof.
  intros Hnew Hok.
  apply (profile_forever_blocks_rejected n pid0 e new Hnew Hok 0 0).
Qed.

(** ** The options of [main] *)

Ltac option_cases c :=
  destruct (Ascii.eqb_spec c "i") as [-> |];
  [|destruct (Ascii.eqb_spec c "f") as [-> |];
    [|destruct (Ascii.eqb_spec c "p") as [-> |];
      [|destruct (Ascii.eqb_spec c "d") as [-> |]]]].

Lemma getopt_loop_app r1 : forall r2 o,
  getopt_loop (r1 ++ r2) o
  = match getopt_loop r1 o with
    | Some o1 => getopt_loop r2 o1
    | None => None
    end.
Proof.
  induction r1 as [|[c a] rest IH]; intros r2 o; simpl; [reflexivity|].
  option_cases c; try apply IH. reflexivity.
Qed.

(** The loop ends in the [default] case exactly when [getopt] reports a
    character that is none of the four. *)
Lemma getopt_loop_None results : forall o,
  getopt_loop results o = None <->
  exists c a,
    In (c, a) results /\
    c <> "i"%char /\ c <> "f"%char /\ c <> "p"%char /\ c <> "d"%char.
Proof.
  induction results as [|[c a] rest IH]; intro o; simpl.
  - split; [discriminate | intros (c & a & [] & _)].
  - assert (Hknown : c = "i"%char \/ c = "f"%char \/ c = "p"%char \/
                     c = "d"%char ->
                     forall o1,
                       getopt_loop rest o1 = None <->
                       exists c0 a0,
                         ((c, a) = (c0, a0) \/ In (c0, a0) rest) /\
                         c0 <> "i"%char /\ c0 <> "f"%char /\
                         c0 <> "p"%char /\ c0 <> "d"%char).
    { intros Hc o1. rewrite IH. split.
      - intros (c0 & a0 & Hin & Hne). exists c0, a0. auto.
      - intros (c0 & a0 & [Heq | Hin] & Hne).
        + injection Heq as <- <-. exfalso. tauto.
        + exists c0, a0. auto. }
    option_cases c; try (apply Hknown; tauto).
    split; [intros _ | reflexivity].
    exists c, a. auto.
Qed.

Lemma getopt_loop_prog_regex results : forall o o',
  getopt_loop results o = Some o' ->
  (forall a, ~ In ("p"%char, a) results) ->
  prog_regex o' = prog_regex o.
Proof.
  induction results as [|[c a] rest IH]; intros o o' H Hno; simpl in H.
  - injection H as <-. reflexivity.
  - assert (Hrest : forall a0, ~ In ("p"%char, a0) rest).
    { intros a0 Hin. apply (Hno a0). simpl. auto. }
    option_cases c; try discriminate;
      try (rewrite (IH _ _ H Hrest); reflexivity).
    exfalso. apply (Hno a). simpl. auto.
Qed.

Lemma getopt_loop_family_str results : forall o o',
  getopt_loop results o = Some o' ->
  (forall a, ~ In ("f"%char, a) results) ->
  family_str o' = family_str o.
Proof.
  induction results as [|[c a] rest IH]; intros o o' H Hno; simpl in H.
  - injection H as <-. reflexivity.
  - assert (Hrest : forall a0, ~ In ("f"%char, a0) rest).
    { intros a0 Hin. apply (Hno a0). simpl. auto. }
    option_cases c; try discriminate;
      try (rewrite (IH _ _ H Hrest); reflexivity).
    exfalso. apply (Hno a). simpl. auto.
Qed.

Lemma getopt_loop_interval results : forall o o',
  getopt_loop results o = Some o' ->
  (forall a, ~ In ("i"%char, a) results) ->
  interval o' = interval o.
Proof.
  induction results as [|[c a] rest IH]; intros o o' H Hno; simpl in H.
  - injection H as <-. reflexivity.
  - assert (Hrest : forall a0, ~ In ("i"%char, a0) rest).
    { intros a0 Hin. apply (Hno a0). simpl. auto. }
    option_cases c; try discriminate;
      try (rewrite (IH _ _ H Hrest); reflexivity).
    exfalso. apply (Hno a). simpl. auto.
Qed.

Lemma getopt_loop_daemonize results : forall o o',
  getopt_loop results o = Some o' ->
  (daemonize o' = true <->
   daemonize o = true \/ exists a, In ("d"%char, a) results).
Proof.
  induction results as [|[c a] rest IH]; intros o o' H; simpl in H.
  - injection H as <-. split; [auto | intros [H | (a & [])]; assumption].
  - assert (Hother : c <> "d"%char ->
                     ((exists a0, In ("d"%char, a0) ((c, a) :: rest)) <->
                      exists a0, In ("d"%char, a0) rest)).
    { intro Hc. split; intros (a0 & Hin); exists a0; simpl in *; [|auto].
      destruct Hin as [Heq | Hin]; [|assumption].
      injection Heq as -> _. contradiction. }
    option_cases c; try discriminate.
    + rewrite (IH _ _ H), Hother by discriminate. reflexivity.
    + rewrite (IH _ _ H), Hother by discriminate. reflexivity.
    + rewrite (IH _ _ H), Hother by discriminate. reflexivity.
    + rewrite (IH _ _ H). simpl. split; [|auto].
      intros _. right. exists a. auto.
Qed.

(** The [-p] argument after the loop is the last one given. *)
Lemma getopt_loop_last_prog_regex before a after o o' :
  getopt_loop (before ++ ("p"%char, a) :: after) o = Some o' ->
  (forall a', ~ In ("p"%char, a') after) ->
  prog_regex o' = Some a.
Proof.
  rewrite getopt_loop_app. intros H Hno.
  destruct (getopt_loop before o) as [o1|]; [|discriminate].
  simpl in H. rewrite (getopt_loop_prog_regex _ _ _ H Hno). reflexivity.
Qed.

Lemma getopt_loop_last_family_str before a after o o' :
  getopt_loop (before ++ ("f"%char, a) :: after) o = Some o' ->
  (forall a', ~ In ("f"%char, a') after) ->
  family_str o' = Some a.
Proof.
  rewrite getopt_loop_app. intros H Hno.
  destruct (getopt_loop before o) as [o1|]; [|discriminate].
  simpl in H. rewrite (getopt_loop_family_str _ _ _ H Hno). reflexivity.
Qed.

Lemma getopt_loop_last_interval before a after o o' :
  getopt_loop (before ++ ("i"%char, a) :: after) o = Some o' ->
  (forall a', ~ In ("i"%char, a') after) ->
  interval o' = atoi a.
Proof.
  rewrite getopt_loop_app. intros H Hno.
  destruct (getopt_loop before o) as [o1|]; [|discriminate].
  simpl in H. rewrite (getopt_loop_interval _ _ _ H Hno). reflexivity.
Qed.

(** An option that occurs has a last occurrence. *)
Lemma last_occurrence (c : ascii) (results : list (ascii * string)) :
  (exists a, In (c, a) results) ->
  exists before a after,
    results = before ++ (c, a) :: after /\
    forall a', ~ In (c, a') after.
Proof.
  induction results as [|[c0 a0] rest IH]; intros (a & Hin); [destruct Hin|].
  destruct (in_dec Ascii.ascii_dec c (map fst rest)) as [Hlater | Hnot].
  - apply in_map_iff in Hlater. destruct Hlater as ([c1 a1] & Hc & Hin1).
    simpl in Hc. subst c1.
    destruct (IH (ex_intro _ a1 Hin1)) as (before & a2 & after & -> & Hno).
    exists ((c0, a0) :: before), a2, after. auto.
  - destruct Hin as [Heq | Hin].
    + injection Heq as -> ->. exists [], a, rest. split; [reflexivity|].
      intros a' Hin'. apply Hnot.
      change c with (fst (c, a')). apply in_map. assumption.
    + exfalso. apply Hnot.
      change c with (fst (c, a)). apply in_map. assumption.
Qed.

(** X14.  [main] prints the usage and fails exactly when [getopt]
    reports a character other than [i], [f], [p] and [d], or no [-p] is
    given, or no [-f] is given; what [fork] and [setsid] would answer
    plays no part. *)
Theorem main_usage results fork_ret setsid_ret :
  main results fork_ret setsid_ret = Exit EXIT_FAILURE USAGE <->
  (exists c a,
     In (c, a) results /\
     c <> "i"%char /\ c <> "f"%char /\ c <> "p"%char /\ c <> "d"%char) \/
  (forall a, ~ In ("p"%char, a) results) \/
  (forall a, ~ In ("f"%char, a) results).
Proof.
  unfold main.
  destruct (getopt_loop results initial_options) as [o|] eqn:Hloop.
  - assert (Hknown : ~ exists c a,
               In (c, a) results /\
               c <> "i"%char /\ c <> "f"%char /\ c <> "p"%char /\
               c <> "d"%char).
    { intro H. apply (getopt_loop_None results initial_options) in H.
      congruence. }
    assert (Hp : prog_regex o = None <->
                 forall a, ~ In ("p"%char, a) results).
    { split.
      - intros Hnone a Hin.
        destruct (last_occurrence "p" results (ex_intro _ a Hin))
          as (before & a1 & after & Heq & Hno).
        rewrite Heq in Hloop.
        rewrite (getopt_loop_last_prog_regex _ _ _ _ _ Hloop Hno) in Hnone.
        discriminate.
      - intro Hno. rewrite (getopt_loop_prog_regex _ _ _ Hloop Hno).
        reflexivity. }
    assert (Hf : family_str o = None <->
                 forall a, ~ In ("f"%char, a) results).
    { split.
      - intros Hnone a Hin.
        destruct (last_occurrence "f" results (ex_intro _ a Hin))
          as (before & a1 & after & Heq & Hno).
        rewrite Heq in Hloop.
        rewrite (getopt_loop_last_family_str _ _ _ _ _ Hloop Hno) in Hnone.
        discriminate.
      - intro Hno. rewrite (getopt_loop_family_str _ _ _ Hloop Hno).
        reflexivity. }
    destruct (prog_regex o) as [regex|]; [|tauto].
    destruct (family_str o) as [fam|]; [|tauto].
    assert (Hnot : ~ ((exists c a,
                In (c, a) results /\
                c <> "i"%char /\ c <> "f"%char /\ c <> "p"%char /\
                c <> "d"%char) \/
             (forall a, ~ In ("p"%char, a) results) \/
             (forall a, ~ In ("f"%char, a) results))).
    { intros [H | [H | H]]; [tauto | |].
      - apply Hp in H. discriminate.
      - apply Hf in H. discriminate. }
    split; [|tauto]. intro H. exfalso.
    destruct (family_of fam) as [family|]; [|discriminate].
    destruct (negb (init_perf_event_masks family =? 0)); [discriminate|].
    destruct (daemonize o); [|discriminate].
    unfold make_daemon in H.
    destruct (fork_ret =? -1); simpl in H; [discriminate|].
    destruct (fork_ret =? 0); [|discriminate].
    destruct (setsid_ret =? -1); simpl in H; discriminate.
  - split; [intros _ | reflexivity].
    left. apply (getopt_loop_None results initial_options). assumption.
Qed.

Lemma main_Profile results fork_ret setsid_ret regex iv :
  main results fork_ret setsid_ret = Profile regex iv ->
  exists o fam family,
    getopt_loop results initial_options = Some o /\
    prog_regex o = Some regex /\ interval o = iv /\
    family_str o = Some fam /\ family_of fam = Some family /\
    init_perf_event_masks family = 0 /\
    (daemonize o = true -> fork_ret = 0 /\ setsid_ret <> -1).
Proof.
  unfold main. intro H.
  destruct (getopt_loop results initial_options) as [o|]; [|discriminate].
  destruct (prog_regex o) as [regex'|] eqn:Hp; [|discriminate].
  destruct (family_str o) as [fam|] eqn:Hf; [|discriminate].
  destruct (family_of fam) as [family|] eqn:Hfam; [|discriminate].
  destruct (Z.eqb_spec (init_perf_event_masks family) 0) as [Hinit | Hinit];
    simpl in H; [|discriminate].
  exists o, fam, family.
  destruct (daemonize o).
  - unfold make_daemon in H.
    destruct (Z.eqb_spec fork_ret (-1)); simpl in H; [discriminate|].
    destruct (Z.eqb_spec fork_ret 0); [|discriminate].
    destruct (Z.eqb_spec setsid_ret (-1)); simpl in H; [discriminate|].
    injection H as <- <-. repeat split; auto.
  - injection H as <- <-. repeat split; auto; discriminate.
Qed.

(** X15.  When [main] enters [profile_forever], the pattern it passes is
    the argument of the last [-p], and the interval is [atoi] of the
    argument of the last [-i], or 10 when there is no [-i]. *)
Theorem main_profile_arguments results fork_ret setsid_ret regex iv :
  main results fork_ret setsid_ret = Profile regex iv ->
  (forall before a after,
     results = before ++ ("p"%char, a) :: after ->
     (forall a', ~ In ("p"%char, a') after) ->
     regex = a) /\
  (forall before a after,
     results = before ++ ("i"%char, a) :: after ->
     (forall a', ~ In ("i"%char, a') after) ->
     iv = atoi a) /\
  ((forall a, ~ In ("i"%char, a) results) -> iv = 10).
Proof.
  intro H.
  destruct (main_Profile _ _ _ _ _ H)
    as (o & fam & family & Hloop & Hp & Hi & _).
  split; [|split].
  - intros before a after -> Hno.
    rewrite (getopt_loop_last_prog_regex _ _ _ _ _ Hloop Hno) in Hp.
    congruence.
  - intros before a after -> Hno.
    rewrite (getopt_loop_last_interval _ _ _ _ _ Hloop Hno) in Hi.
    congruence.
  - intro Hno. rewrite (getopt_loop_interval _ _ _ Hloop Hno) in Hi.
    simpl in Hi. congruence.
Qed.

(** X16.  Daemonizing.  Without [-d] neither [fork] nor [setsid] matters
    to what [main] does.  With [-d], [main] enters [profile_forever]
    only in the child of a successful [fork], after a successful
    [setsid].  [main] exits without a message only as the parent of a
    successful [fork], with status [EXIT_SUCCESS], and only when [-d] was
    given.  Whenever [main] enters [profile_forever], the argument of the
    last [-f] names a family that [init_perf_event_masks] accepts. *)
Theorem main_daemonizes results fork_ret setsid_ret :
  ((forall a, ~ In ("d"%char, a) results) ->
   forall fork_ret' setsid_ret',
     main results fork_ret' setsid_ret' = main results fork_ret setsid_ret) /\
  (forall regex iv,
     main results fork_ret setsid_ret = Profile regex iv ->
     ((exists a, In ("d"%char, a) results) ->
      fork_ret = 0 /\ setsid_ret <> -1) /\
     exists before fam after family,
       results = before ++ ("f"%char, fam) :: after /\
       (forall a', ~ In ("f"%char, a') after) /\
       family_of fam = Some family /\
       init_perf_event_masks family = 0) /\
  (forall status,
     main results fork_ret setsid_ret = Exit status nothing ->
     status = EXIT_SUCCESS /\ fork_ret <> 0 /\ fork_ret <> -1 /\
     exists a, In ("d"%char, a) results).
Proof.
  split; [|split].
  - intros Hno fork_ret' setsid_ret'. unfold main.
    destruct (getopt_loop results initial_options) as [o|] eqn:Hloop;
      [|reflexivity].
    assert (Hd : daemonize o = false).
    { destruct (daemonize o) eqn:Hd; [|reflexivity].
      apply (getopt_loop_daemonize _ _ _ Hloop) in Hd.
      destruct Hd as [Hd | (a & Hin)]; [discriminate|].
      exfalso. apply (Hno a Hin). }
    rewrite Hd. reflexivity.
  - intros regex iv H.
    destruct (main_Profile _ _ _ _ _ H)
      as (o & fam & family & Hloop & _ & _ & Hf & Hfam & Hinit & Hd).
    split.
    + intro Hin. apply Hd.
      apply (getopt_loop_daemonize _ _ _ Hloop). auto.
    + assert (Hsome : exists a, In ("f"%char, a) results).
      { destruct (in_dec Ascii.ascii_dec "f"%char (map fst results))
          as [Hin | Hnot].
        - apply in_map_iff in Hin. destruct Hin as ([c a] & Hc & Hin).
          simpl in Hc. subst c. eauto.
        - exfalso.
          assert (Hno : forall a, ~ In ("f"%char, a) results).
          { intros a Hin. apply Hnot.
            change "f"%char with (fst ("f"%char, a)). apply in_map.
            assumption. }
          rewrite (getopt_loop_family_str _ _ _ Hloop Hno) in Hf.
          discriminate. }
      destruct (last_occurrence "f" results Hsome)
        as (before & a & after & Heq & Hno).
      exists before, fam, after, family.
      rewrite Heq in Hloop.
      rewrite (getopt_loop_last_family_str _ _ _ _ _ Hloop Hno) in Hf.
      injection Hf as ->. auto.
  - intros status H. unfold main in H.
    destruct (getopt_loop results initial_options) as [o|] eqn:Hloop;
      [|discriminate].
    destruct (prog_regex o) as [regex|]; [|discriminate].
    destruct (family_str o) as [fam|]; [|discriminate].
    destruct (family_of fam) as [family|]; [|discriminate].
    destruct (negb (init_perf_event_masks family =? 0)); [discriminate|].
    destruct (daemonize o) eqn:Hd; [|discriminate].
    apply (getopt_loop_daemonize _ _ _ Hloop) in Hd.
    destruct Hd as [Hd | Hd]; [discriminate|].
    unfold make_daemon in H.
    destruct (Z.eqb_spec fork_ret (-1)); simpl in H; [discriminate|].
    destruct (Z.eqb_spec fork_ret 0).
    + destruct (setsid_ret =? -1); simpl in H; discriminate.
    + injection H as <-. auto.
Qed.

(** ** Lines that are passed over *)

Lemma prefix_occurs (needle haystack : string) :
  prefix needle haystack = true <->
  exists after : string, haystack = (needle ++ after)%string.
Proof.
  revert haystack. induction needle as [|a needle IH]; intro haystack.
  - split; [intros _; exists haystack; reflexivity|].
    intros _. destruct haystack; reflexivity.
  - destruct haystack as [|b haystack]; simpl.
    + split; [discriminate | intros (after & H); discriminate].
    + destruct (ascii_dec a b) as [-> | Hne].
      * rewrite IH. split; intros (after & H); exists after.
        -- rewrite H. reflexivity.
        -- injection H as ->. reflexivity.
      * split; [discriminate|]. intros (after & H). injection H as <- _.
        contradiction.
Qed.

Lemma strstr_eq (haystack needle : string) :
  strstr haystack needle
  = if prefix needle haystack then true
    else match haystack with
         | EmptyString => false
         | String _ rest => strstr rest needle
         end.
Proof. destruct haystack; reflexivity. Qed.

Lemma strstr_occurs (haystack needle : string) :
  strstr haystack needle = true <-> occurs needle haystack.
Proof.
  unfold occurs. induction haystack as [|b haystack IH];
    rewrite strstr_eq;
    destruct (prefix needle _) eqn:Hp.
  - split; [intros _ | reflexivity].
    apply prefix_occurs in Hp. destruct Hp as (after & H).
    exists ""%string, after. exact H.
  - split; [discriminate|]. intros (before & after & H).
    destruct before as [|c before]; [|discriminate].
    simpl in H. rewrite <- Hp. apply prefix_occurs. eauto.
  - split; [intros _ | reflexivity].
    apply prefix_occurs in Hp. destruct Hp as (after & H).
    exists ""%string, after. exact H.
  - rewrite IH. split.
    + intros (before & after & ->). exists (String b before), after.
      reflexivity.
    + intros (before & after & H).
      destruct before as [|c before].
      * simpl in H. exfalso.
        assert (Ht : prefix needle (String b haystack) = true)
          by (apply prefix_occurs; eauto).
        congruence.
      * injection H as _ ->. eauto.
Qed.

Lemma read_lines_In lines pid0 e :
  In (pid0, e) (read_lines lines) <->
  exists l,
    In l lines /\ ignored (line_text l) = false /\
    line_pid l = pid0 /\ line_extern l = e.
Proof.
  induction lines as [|l rest IH]; simpl.
  - split; [intros [] | intros (l & [] & _)].
  - destruct (ignored (line_text l)) eqn:Hi.
    + rewrite IH. split.
      * intros (l' & Hin & H). exists l'. auto.
      * intros (l' & [<- | Hin] & Hi' & H); [congruence|].
        exists l'. auto.
    + simpl. rewrite IH. split.
      * intros [Heq | (l' & Hin & H)].
        -- injection Heq as <- <-. exists l. auto.
        -- exists l'. auto.
      * intros (l' & [<- | Hin] & Hi' & <- & <-); [auto|].
        right. exists l'. auto.
Qed.

(** X17.  A line that mentions [sshd], [bash] or [global_profile]
    anywhere is passed over.  So every hint of a tick carries the pid of
    a line that mentions none of the three, and, as long as the clock has
    not wrapped around, so does every pid the list tracks after the
    tick: a process whose line mentions one of them is not tracked. *)
Theorem ignored_lines_not_tracked ticks lines :
  let s := state_after ticks in
  let clean := fun l : ps_line =>
    In l lines /\
    ~ occurs "sshd" (line_text l) /\
    ~ occurs "bash" (line_text l) /\
    ~ occurs "global_profile" (line_text l) in
  (forall pid0 e,
     In (pid0, e) (read_lines lines) <->
     exists l, clean l /\ line_pid l = pid0 /\ line_extern l = e) /\
  Forall (fun h : hint => exists l, clean l /\ line_pid l = fst h)
         (snd (profile_iteration (read_lines lines) s)) /\
  (Z.of_nat (length ticks) < ULONG_MODULUS ->
   forall p,
     In p (pids (head (fst (profile_iteration (read_lines lines) s)))) ->
     exists l, clean l /\ line_pid l = p).
Proof.
  intros s clean.
  assert (Hclean : forall l,
             In l lines /\ ignored (line_text l) = false <-> clean l).
  { intro l. subst clean. unfold ignored.
    rewrite !orb_false_iff, <- !not_true_iff_false, !strstr_occurs. tauto. }
  assert (Hread : forall pid0 e,
             In (pid0, e) (read_lines lines) <->
             exists l, clean l /\ line_pid l = pid0 /\ line_extern l = e).
  { intros pid0 e. rewrite read_lines_In. split.
    - intros (l & Hin & Hi & H). exists l. split; [apply Hclean|]; auto.
    - intros (l & Hc & H). apply Hclean in Hc. exists l. tauto. }
  assert (Hpid : forall p, In p (obs_pids (read_lines lines)) ->
                           exists l, clean l /\ line_pid l = p).
  { intros p Hin. unfold obs_pids in Hin. apply in_map_iff in Hin.
    destruct Hin as ([pid0 e] & Hp & Hin). simpl in Hp. subst pid0.
    apply Hread in Hin. destruct Hin as (l & Hc & Hl & _). eauto. }
  split; [exact Hread | split].
  - rewrite profile_iteration_eq. simpl snd.
    pose proof (merge_hints_pids (current_timestamp s) (read_lines lines)
                                 (head s)) as Hh.
    eapply Forall_impl; [|exact Hh]. simpl. intros h Hin. auto.
  - intros Hlen p Hin.
    pose proof (state_after_between ticks Hlen) as Hs. fold s in Hs.
    unfold pids in Hin. apply in_map_iff in Hin.
    destruct Hin as (q & <- & Hq).
    apply (profile_iteration_list _ s q Hs) in Hq. apply Hpid. tauto.
Qed.

End Profiler.

(** * The claims on concrete data *)

(** Scenario C: a new pid below the threshold fails the update. *)
Lemma scenario_below_threshold :
  let r := update_process_stats 10000 0 (all_available 500 0 7%Q) 200
                                fresh_block in
  anon_size (snd r) <= 10000 /\ fst r = false /\ skip (snd r) = true.
Proof.
  assert (Hle : anon_size (snd (update_process_stats
                  10000 0 (all_available 500 0 7%Q) 200 fresh_block))
                <= 10000) by (simpl; lia).
  destruct (update_process_stats_eligibility
              10000 5%Q 0 (all_available 500 0 7%Q) 200 fresh_block)
    as (_ & _ & H & _).
  destruct (H Hle) as (Hf & Hs & _).
  exact (conj Hle (conj Hf Hs)).
Defined.

(** Scenario B: pid 100, tracked through tick 5, is gone after a tick 6
    that does not list it. *)
Lemma scenario_disappearance :
  Z.of_nat (length six_ticks) < ULONG_MODULUS /\
  In 100 (pids (head (state_after 10000 six_ticks))) /\
  ~ In 100 (pids (head (fst (profile_iteration 10000 []
                               (state_after 10000 six_ticks))))).
Proof.
  assert (Hlen : Z.of_nat (length six_ticks) < ULONG_MODULUS)
    by (vm_compute; reflexivity).
  assert (Hin : In 100 (pids (head (state_after 10000 six_ticks))))
    by (vm_compute; left; reflexivity).
  destruct (prune_after_tick 10000 six_ticks []) as (_ & _ & H).
  destruct (H Hlen) as (_ & Hgone & _).
  refine (conj Hlen (conj Hin (Hgone 100 Hin _))).
  simpl. tauto.
Defined.

(** A pid listed again has its node updated where it stands: new
    stamp, new sizes, new overhead, and still one node. *)
Lemma repeated_pid_updates :
  In 100 (pids [tracked]) /\
  fst (add_pid_to_list 10000 6 (all_available 60000 0 8%Q) 100 [tracked])
  = [mkProcess 100 6 60000 0 8%Q false].
Proof.
  assert (Hin : In 100 (pids [tracked])) by (simpl; auto).
  destruct (list_pids_unique 10000 [] []) as (_ & _ & H).
  destruct (H 6 (all_available 60000 0 8%Q) 100 [tracked] Hin)
    as ((l1 & old & l2 & Hl & _ & _ & Hadd) & _ & _).
  split; [exact Hin|].
  destruct l1 as [|a l1].
  - injection Hl as <- <-. rewrite Hadd. reflexivity.
  - injection Hl as _ Hl. destruct l1; discriminate.
Defined.

(** Scenario A: a new process above the threshold is inserted, with the
    hints 1000 and then 3 for an overhead of 7/2. *)
Lemma scenario_new_process :
  ~ In 100 (pids []) /\
  add_pid_to_list 10000 0 (all_available 50000 0 (7 # 2)) 100 []
  = ([mkProcess 100 0 50000 0 (7 # 2) false], [(100, 1000); (100, 3)]).
Proof.
  assert (Hnot : ~ In 100 (pids [])) by (simpl; tauto).
  destruct (add_pid_to_list_new 10000 0 (all_available 50000 0 (7 # 2))
                                100 [] Hnot) as [_ H].
  destruct (H eq_refl) as [Hadd _].
  exact (conj Hnot Hadd).
Defined.

(** C4, the claim as stated fails: a new process whose overhead is
    3000000000 is inserted, and the second hint is 1, not
    [max(1, floor(overhead))] = 3000000000: the cast to [int] has left
    the range of [int]. *)
Lemma new_process_hint_out_of_range :
  ~ In 100 (pids []) /\
  fst (update_process_stats 10000 0 (all_available 50000 0 3000000000%Q)
                            100 fresh_block) = true /\
  add_pid_to_list 10000 0 (all_available 50000 0 3000000000%Q) 100 []
  = ([mkProcess 100 0 50000 0 3000000000%Q false],
     [(100, 1000); (100, 1)]) /\
  Z.max 1 (Qfloor 3000000000%Q) = 3000000000.
Proof.
  split; [simpl; tauto|]. repeat split.
Qed.

(** A tracked process whose metrics cannot be read still gets its hint,
    from the overhead of its last success. *)
Lemma tracked_hint_after_failure :
  In 100 (pids [tracked]) /\
  add_pid_to_list 10000 6 nothing_available 100 [tracked]
  = ([tracked_after_failure], [(100, 7)]).
Proof.
  assert (Hin : In 100 (pids [tracked])) by (simpl; auto).
  destruct (add_pid_to_list_tracked 10000 6 nothing_available 100 [tracked])
    as [H _].
  destruct (H Hin) as (l1 & old & l2 & Hl & _ & _ & Hadd & _).
  split; [exact Hin|].
  destruct l1 as [|a l1].
  - injection Hl as <- <-. rewrite Hadd. reflexivity.
  - injection Hl as _ Hl. destruct l1; discriminate.
Defined.

(** C5, the claim as stated fails: a tracked process whose overhead is
    refreshed to 3000000000 gets the hint 1, not
    [max(1, floor(overhead))] = 3000000000, and under the clamp the cast
    and the floor differ there. *)
Lemma tracked_hint_out_of_range :
  In 100 (pids [tracked]) /\
  add_pid_to_list 10000 6 (all_available 50000 0 3000000000%Q) 100 [tracked]
  = ([mkProcess 100 6 50000 0 3000000000%Q false], [(100, 1)]) /\
  max 1 (cast_int 3000000000%Q) = 1 /\
  Z.max 1 (Qfloor 3000000000%Q) = 3000000000.
Proof.
  split; [simpl; auto|]. repeat split.
Qed.

(** Scenario D with [IS_CONSIDERABLE = 5]. *)
Lemma scenario_scoring :
  (5 <= 10)%Q /\
  update_candidate_process 5%Q [scenario_A; scenario_B]
  = Some (Some scenario_A) /\
  update_candidate_process 5%Q [scenario_B; scenario_A]
  = Some (Some scenario_A).
Proof.
  assert (H : (5 <= 10)%Q) by discriminate.
  destruct (update_candidate_process_selects 5%Q [])
    as (_ & _ & _ & _ & _ & _ & _ & _ & _ & _ & HD).
  exact (conj H (HD H)).
Defined.

(** C7, the claim as stated fails: the update of a tracked record fails
    (no metric can be read) and yet moves its [timestamp] from 5 to 6,
    in the record and in the list. *)
Lemma failed_update_restamps :
  fst (update_process_stats 10000 6 nothing_available 100 tracked) = false /\
  timestamp tracked = 5 /\
  timestamp (snd (update_process_stats 10000 6 nothing_available 100 tracked))
  = 6 /\
  timestamp (snd (update_process_stats 10000 6 nothing_available 100 tracked))
  <> timestamp tracked /\
  fst (add_pid_to_list 10000 6 nothing_available 100 [tracked])
  = [tracked_after_failure].
Proof.
  repeat split. simpl. discriminate.
Qed.

(** The stamp of a failed observation, through the list. *)
Lemma failed_observation_stamp :
  NoDup (pids [tracked]) /\
  In tracked_after_failure
     (fst (add_pid_to_list 10000 6 nothing_available 100 [tracked])) /\
  timestamp tracked_after_failure = 6.
Proof.
  assert (Hnd : NoDup (pids [tracked])).
  { simpl. constructor; [simpl; tauto | constructor]. }
  assert (Hin : In tracked_after_failure
                   (fst (add_pid_to_list 10000 6 nothing_available 100
                                         [tracked])))
    by (simpl; auto).
  destruct (update_process_stats_stamps 10000 6 nothing_available 100 tracked)
    as (_ & H & _).
  exact (conj Hnd (conj Hin (H [tracked] tracked_after_failure Hnd Hin
                               eq_refl))).
Defined.

(** C8, the claim as stated fails: a candidate with a strictly positive
    [anon_size - anon_thp] of 512 is given -1, not the overhead over the
    megabyte-normalized difference (40 / (512 / 1048576) = 81920), and a
    scan in which it is the only candidate has no outcome. *)
Lemma small_remainder_excluded :
  is_candidate 5%Q small_remainder = true /\
  0 < anon_size small_remainder - anon_thp small_remainder /\
  get_process_weight small_remainder = Some (-1)%Q /\
  ~ (-1 == overhead small_remainder
           / (inject_Z (anon_size small_remainder - anon_thp small_remainder)
              / 1048576))%Q /\
  update_candidate_process 5%Q [small_remainder] = Some None.
Proof.
  repeat split. intro H. discriminate H.
Qed.

(** The weight of A in scenario D. *)
Lemma scenario_weight :
  1024 <= anon_size scenario_A - anon_thp scenario_A /\
  get_process_weight scenario_A
  = Some (overhead scenario_A / rss scenario_A * 1024)%Q /\
  (overhead scenario_A / rss scenario_A * 1024 == 20)%Q.
Proof.
  assert (Hd : 1024 <= anon_size scenario_A - anon_thp scenario_A)
    by (simpl; lia).
  destruct (get_process_weight_scored 5%Q scenario_A) as [H _].
  destruct (H Hd) as (Hw & _ & _).
  refine (conj Hd (conj Hw _)). reflexivity.
Defined.

(** A malformed record next to a sound one: the sound one is the
    outcome. *)
Lemma malformed_next_to_sound :
  anon_size malformed - anon_thp malformed <= 0 /\
  get_process_weight malformed = Some (-1)%Q /\
  update_candidate_process 5%Q [malformed; scenario_B]
  = Some (Some scenario_B).
Proof.
  assert (Hd : anon_size malformed - anon_thp malformed <= 0)
    by (simpl; lia).
  destruct (malformed_metrics_excluded 5%Q malformed [malformed; scenario_B]
                                       Hd) as (Hw & _).
  refine (conj Hd (conj Hw _)). reflexivity.
Defined.

(** Candidates of zero and negative weight only: no outcome. *)
Lemma no_positive_weight_no_outcome :
  is_candidate (-5)%Q zero_overhead = true /\
  is_candidate (-5)%Q negative_overhead = true /\
  update_candidate_process (-5)%Q [zero_overhead; negative_overhead; malformed]
  = Some None.
Proof.
  destruct (update_candidate_process_positive
              (-5)%Q [zero_overhead; negative_overhead; malformed])
    as (_ & [_ H] & _).
  refine (conj eq_refl (conj eq_refl (H _))).
  intros c [<- | [<- | [<- | []]]] _.
  - exists (weight zero_overhead). split; [reflexivity | discriminate].
  - exists (weight negative_overhead). split; [reflexivity | discriminate].
  - exists (weight malformed). split; [reflexivity | discriminate].
Defined.

(** * The further properties on concrete data *)

(** Pruning at time 3 and then at time 5. *)
Lemma prune_at_3_then_5 :
  3 <= 5 /\
  remove_expired_processes 5
    (remove_expired_processes 3 [tracked; scenario_A; tracked_after_failure])
  = [tracked; tracked_after_failure].
Proof.
  assert (H : 3 <= 5) by lia.
  destruct (remove_expired_processes_twice
              3 5 [tracked; scenario_A; tracked_after_failure] H)
    as (H1 & _ & _).
  split; [exact H|]. rewrite H1. reflexivity.
Defined.

(** Below the threshold the answer of the counters makes no difference. *)
Lemma counters_unread_below_threshold :
  ext_thp (all_available 500 0 99%Q) = ext_thp (all_available 500 0 7%Q) /\
  update_process_stats 10000 6 (all_available 500 0 99%Q) 100 tracked
  = update_process_stats 10000 6 (all_available 500 0 7%Q) 100 tracked /\
  overhead (snd (update_process_stats 10000 6 (all_available 500 0 7%Q)
                                      100 tracked))
  = overhead tracked.
Proof.
  assert (Hsame : ext_thp (all_available 500 0 99%Q)
                  = ext_thp (all_available 500 0 7%Q)) by reflexivity.
  assert (Hlow : ext_thp (all_available 500 0 7%Q) = Unavailable \/
                 exists size thp,
                   ext_thp (all_available 500 0 7%Q) = Available (size, thp) /\
                   size <= 10000).
  { right. exists 500, 0. split; [reflexivity | lia]. }
  destruct (update_process_stats_counters_unread
              10000 6 (all_available 500 0 7%Q) (all_available 500 0 99%Q)
              100 tracked Hsame Hlow) as (H1 & H2 & _).
  exact (conj Hsame (conj H1 H2)).
Defined.

(** Same memory, more overhead, no less weight. *)
Lemma heavier_with_more_overhead :
  1024 <= anon_size zero_overhead - anon_thp zero_overhead /\
  1024 <= anon_size scenario_A - anon_thp scenario_A /\
  (weight zero_overhead <= weight scenario_A)%Q.
Proof.
  assert (Hp : 1024 <= anon_size zero_overhead - anon_thp zero_overhead)
    by (simpl; lia).
  assert (Hq : 1024 <= anon_size scenario_A - anon_thp scenario_A)
    by (simpl; lia).
  destruct (weight_monotone zero_overhead scenario_A Hp Hq) as [H _].
  refine (conj Hp (conj Hq (H _ _))); [reflexivity | discriminate].
Defined.

(** Scenario D in both orders: outcomes of equal weight. *)
Lemma scenario_scoring_order :
  (forall q, In q [scenario_A; scenario_B] <-> In q [scenario_B; scenario_A]) /\
  match update_candidate_process 5%Q [scenario_A; scenario_B],
        update_candidate_process 5%Q [scenario_B; scenario_A] with
  | Some (Some p), Some (Some p') => (weight p == weight p')%Q
  | Some None, Some None => True
  | _, _ => False
  end.
Proof.
  assert (H : forall q, In q [scenario_A; scenario_B]
                        <-> In q [scenario_B; scenario_A])
    by (intro q; simpl; tauto).
  exact (conj H (update_candidate_process_order
                   5%Q [scenario_A; scenario_B] [scenario_B; scenario_A] H)).
Defined.

(** Scenario C, tick after tick: three ticks, three blocks, no node. *)
Lemma three_ticks_three_blocks :
  ext_malloc (all_available 500 0 7%Q) = Some fresh_block /\
  fst (update_process_stats 10000 0 (all_available 500 0 7%Q) 200 fresh_block)
  = false /\
  snd (profile_forever_blocks 10000
         (repeat [(200, all_available 500 0 7%Q)] 3) initial_state 0)
  = 3.
Proof.
  assert (Hnew : ext_malloc (all_available 500 0 7%Q) = Some fresh_block)
    by reflexivity.
  assert (Hok : fst (update_process_stats 10000 0 (all_available 500 0 7%Q)
                                          200 fresh_block) = false)
    by reflexivity.
  destruct (rejected_pid_costs_a_block_per_tick
              10000 3 200 (all_available 500 0 7%Q) fresh_block Hnew Hok)
    as (_ & _ & H).
  exact (conj Hnew (conj Hok H)).
Defined.

(** The last [-p] and the last [-i] of the command line. *)
Lemma command_line_arguments :
  main atoi_five masks_accepted command_line 0 0
  = Profile "b.out"%string 5 /\
  5 = atoi_five "5"%string.
Proof.
  assert (H : main atoi_five masks_accepted command_line 0 0
              = Profile "b.out"%string 5) by reflexivity.
  destruct (main_profile_arguments atoi_five masks_accepted command_line
              0 0 "b.out"%string 5 H) as (_ & Hi & _).
  refine (conj H (Hi [("p"%char, "a.out"%string); ("f"%char, "haswell"%string)]
                     "5"%string [("p"%char, "b.out"%string)] eq_refl _)).
  intros a' [Heq | []]. discriminate Heq.
Defined.
